(** * Experimental Works portfolio page: a verified model of [script.js]

    The page script is embedded function by function: the string helpers of
    the host (trim, split, join, global regular-expression replace), the
    lightweight markdown converter [mdToHtml], the RSS builder [makeRSS], the
    card renderer [render], the filter [applyFilters] and the loader [init].

    Strings are sequences of UTF-16 code units, as in the host language, so
    that whitespace and line terminators outside ASCII are covered.  Arrays
    live in a store of locations, because [sort] works in place and the
    script relies on [slice] and [filter] returning fresh arrays. *)

From Stdlib Require Import String Ascii NArith ZArith List Lia Bool DecimalString.
From Stdlib Require Import Permutation.
From stdpp Require Import base list gmap.
Import ListNotations.

Set Default Proof Using "Type".

(** ** Strings *)

Definition char := N.
Definition str := list char.

Definition ch (a : ascii) : char := N_of_ascii a.
Definition ustr (s : string) : str := List.map ch (list_ascii_of_string s).

Definition ceq (a b : char) : bool := N.eqb a b.

Fixpoint str_eqb (a b : str) : bool :=
  match a, b with
  | [], [] => true
  | x :: a', y :: b' => ceq x y && str_eqb a' b'
  | _, _ => false
  end.

(** ** The host's string primitives *)

Module JS.

(** [WhiteSpace] and [LineTerminator] code points: the set that [trim],
    [trimEnd] and the class [\s] use. *)
Definition is_ws (c : char) : bool :=
  existsb (ceq c)
    [9; 10; 11; 12; 13; 32; 160; 5760; 8232; 8233; 8239; 8287; 12288; 65279]%N
  || (N.leb 8192 c && N.leb c 8202).

(** [LineTerminator]: what the regular expression [.] refuses. *)
Definition is_line_terminator (c : char) : bool :=
  existsb (ceq c) [10; 13; 8232; 8233]%N.

Fixpoint dropWhile (f : char -> bool) (s : str) : str :=
  match s with
  | [] => []
  | c :: r => if f c then dropWhile f r else s
  end.

Fixpoint span (f : char -> bool) (s : str) : str * str :=
  match s with
  | [] => ([], [])
  | c :: r => if f c then let '(a, b) := span f r in (c :: a, b) else ([], s)
  end.

Definition trimStart (s : str) : str := dropWhile is_ws s.
Definition trimEnd (s : str) : str := rev (dropWhile is_ws (rev s)).
Definition trim (s : str) : str := trimEnd (trimStart s).

Fixpoint startsWith (p s : str) : bool :=
  match p, s with
  | [], _ => true
  | x :: p', y :: s' => ceq x y && startsWith p' s'
  | _ :: _, [] => false
  end.

(** [h.includes(n)] *)
Fixpoint includes (h n : str) : bool :=
  startsWith n h || match h with [] => false | _ :: h' => includes h' n end.

(** [s.split(sep)] for a one-character separator. *)
Fixpoint split (sep : char) (s : str) : list str :=
  match s with
  | [] => [[]]
  | c :: r =>
      if ceq c sep then [] :: split sep r
      else match split sep r with
           | l :: ls => (c :: l) :: ls
           | [] => [[c]]
           end
  end.

(** [l.join(sep)] *)
Fixpoint join (sep : str) (l : list str) : str :=
  match l with
  | [] => []
  | x :: r => match r with [] => x | _ :: _ => x ++ sep ++ join sep r end
  end.

(** [s.replace(/c/g, r)] for a one-character pattern. *)
Definition replace_char (c : char) (r : str) (s : str) : str :=
  flat_map (fun x => if ceq x c then r else [x]) s.

(** [s.replace(/\r\n/g, "\n")] *)
Fixpoint replace_crlf (s : str) : str :=
  match s with
  | [] => []
  | c :: r =>
      if ceq c 13%N then
        match r with
        | d :: r' => if ceq d 10%N then 10%N :: replace_crlf r'
                     else c :: replace_crlf r
        | [] => [c]
        end
      else c :: replace_crlf r
  end.

(** [s.replace(re, f)] for a global regular expression that never matches
    the empty string.  [m s] tries the expression at the start of [s] and
    gives the replacement text together with what follows the match.  The
    scan goes left to right; where nothing matches one character is
    copied.  The fuel is the length of the subject. *)
Section ReplaceAll.
Variable m : str -> option (str * str).

Fixpoint replace_all_aux (fuel : nat) (s : str) : str :=
  match fuel with
  | O => s
  | S f =>
      match s with
      | [] => []
      | c :: rest =>
          match m s with
          | Some (r, rest') => r ++ replace_all_aux f rest'
          | None => c :: replace_all_aux f rest
          end
      end
  end.

Definition replace_all (s : str) : str := replace_all_aux (length s) s.
End ReplaceAll.

End JS.

(** ** The markdown converter *)

Module Md.
Import JS.

Definition amp : char := ch "&".
Definition lt : char := ch "<".
Definition gt : char := ch ">".
Definition quot : char := 34%N.
Definition backtick : char := ch "`".
Definition lbracket : char := ch "[".
Definition rbracket : char := ch "]".
Definition lparen : char := ch "(".
Definition rparen : char := ch ")".
Definition newline : char := 10%N.

(** [esc]: four global replacements, in the order of the source. *)
Definition esc (s : str) : str :=
  replace_char quot (ustr "&quot;")
    (replace_char gt (ustr "&gt;")
      (replace_char lt (ustr "&lt;")
        (replace_char amp (ustr "&amp;") s))).

(** The expression [`([^`]+)`] tried at the start of [s], with the
    replacement [<code>$1</code>]. *)
Definition code_match (s : str) : option (str * str) :=
  match s with
  | c :: rest =>
      if ceq c backtick then
        match span (fun x => negb (ceq x backtick)) rest with
        | ((_ :: _) as body, d :: rest') =>
            Some (ustr "<code>" ++ body ++ ustr "</code>", rest')
        | _ => None
        end
      else None
  | [] => None
  end.

Definition safe_url (u : str) : bool :=
  startsWith (ustr "http://") u || startsWith (ustr "https://") u
  || startsWith (ustr "/") u || startsWith (ustr "./") u
  || startsWith (ustr "../") u.

Definition anchor_open (href : str) : str :=
  ustr "<a href=" ++ [quot] ++ href ++ [quot]
    ++ ustr " target=" ++ [quot] ++ ustr "_blank" ++ [quot]
    ++ ustr " rel=" ++ [quot] ++ ustr "noreferrer" ++ [quot] ++ ustr ">".

(** The replacer of the link expression: [(m, text, url) => ...]. *)
Definition link_replacer (text url : str) : str :=
  let u := trim url in
  if negb (safe_url u) then esc text
  else anchor_open (esc u) ++ esc text ++ ustr "</a>".

(** The expression [\[([^\]]+)\]\(([^)]+)\)] tried at the start of [s]. *)
Definition link_match (s : str) : option (str * str) :=
  match s with
  | c :: rest =>
      if ceq c lbracket then
        match span (fun x => negb (ceq x rbracket)) rest with
        | ((_ :: _) as text, d :: e :: rest1) =>
            if ceq e lparen then
              match span (fun x => negb (ceq x rparen)) rest1 with
              | ((_ :: _) as url, f :: rest2) =>
                  Some (link_replacer text url, rest2)
              | _ => None
              end
            else None
        | _ => None
        end
      else None
  | [] => None
  end.

Definition inline (s : str) : str :=
  replace_all link_match (replace_all code_match (esc s)).

(** The loop state: the array [out] and the flag [inList]. *)
Record state := { out : list str; inList : bool }.

Definition push (x : str) (st : state) : state :=
  {| out := out st ++ [x]; inList := inList st |}.

Definition closeList (st : state) : state :=
  if inList st then {| out := out st ++ [ustr "</ul>"]; inList := false |}
  else st.

(** A line matched against a marker followed by [\s+] and a captured
    rest of line (any characters but line terminators, up to the end):
    the capture, when the line matches.  [\s+] takes the whole run of
    whitespace, and the capture then needs the rest of the line to be free
    of line terminators; giving whitespace back cannot help, since the
    rest of the line would only grow. *)
Definition match_after (rest : str) : option str :=
  match span is_ws rest with
  | (_ :: _, body) =>
      if forallb (fun c => negb (is_line_terminator c)) body then Some body
      else None
  | ([], _) => None
  end.

Definition match_heading (hashes : str) (line : str) : option str :=
  if startsWith hashes line then match_after (skipn (length hashes) line)
  else None.

(** The list item expression: [-] or [*], then whitespace, then the
    captured rest of the line. *)
Definition match_li (line : str) : option str :=
  match line with
  | c :: rest =>
      if ceq c (ch "-") || ceq c (ch "*") then match_after rest else None
  | [] => None
  end.

(** [s.replace(/^>\s?/, "")] *)
Definition strip_quote_marker (s : str) : str :=
  match s with
  | c :: rest =>
      if ceq c gt then
        match rest with
        | d :: rest' => if is_ws d then rest' else rest
        | [] => []
        end
      else s
  | [] => []
  end.

Definition wrap (tag : string) (body : str) : str :=
  ustr "<" ++ ustr tag ++ ustr ">" ++ body ++ ustr "</" ++ ustr tag ++ ustr ">".

(** One iteration of [for (const raw of lines)]. *)
Definition step (st : state) (raw : str) : state :=
  let line := trimEnd raw in
  match trim line with
  | [] => closeList st
  | _ :: _ =>
      if startsWith (ustr ">") (trim line) then
        push (wrap "blockquote" (inline (strip_quote_marker (trim line))))
             (closeList st)
      else
        match match_heading (ustr "###") line with
        | Some t => push (wrap "h3" (inline t)) (closeList st)
        | None =>
        match match_heading (ustr "##") line with
        | Some t => push (wrap "h2" (inline t)) (closeList st)
        | None =>
        match match_heading (ustr "#") line with
        | Some t => push (wrap "h1" (inline t)) (closeList st)
        | None =>
        match match_li line with
        | Some t =>
            push (wrap "li" (inline t))
                 (if inList st then st
                  else {| out := out st ++ [ustr "<ul>"]; inList := true |})
        | None => push (wrap "p" (inline line)) (closeList st)
        end end end end
  end.

Definition lines_of (md : str) : list str := split newline (replace_crlf md).

Definition run (lines : list str) : state :=
  closeList (fold_left step lines {| out := []; inList := false |}).

Definition mdToHtml (md : str) : str :=
  join [newline] (out (run (lines_of md))).

End Md.

(** ** Data model *)

Record Link := { url : option str; label : option str }.

Inductive Image :=
| ImagePath (path : str)
| ImageObject (src alt : option str).

(** A project as parsed from [data.json].  A missing or null field is
    [None]; the three flags are booleans, a missing flag being [false]. *)
Record Project := {
  id_ : option str;
  title : option str;
  date : option str;
  description : option str;
  status : option str;
  tags : option (list str);
  links : option (list Link);
  images : option (list Image);
  isDraft : bool;
  isArchived : bool;
  isPrivate : bool
}.

(** Truthiness of an optional string: present and not empty. *)
Definition truthy (o : option str) : bool :=
  match o with Some (_ :: _) => true | _ => false end.

(** [o || d] *)
Definition or_else (o : option str) (d : str) : str :=
  match o with Some ((_ :: _) as s) => s | _ => d end.

(** How [Array.prototype.join] and template literals print a field. *)
Definition or_empty (o : option str) : str := default [] o.

(** ** The host: what the engine and the browser provide *)

Class Host := {
  toLowerCase : str -> str;
  (** [new Date(s).getTime()]; [None] is [NaN] *)
  date_parse : str -> option Z;
  (** [toUTCString] of a date with the given time value *)
  toUTCString : option Z -> str;
  (** [toLocaleDateString] with the options of [fmtDate] *)
  toLocaleDateString : Z -> str;
  localeCompare : str -> str -> Z;
  (** the time value of [new Date()] *)
  now : Z;
  (** [Math.random()] printed, at the n-th item of the feed *)
  random : nat -> str;
  location_href : str
}.

(** ** [Array.prototype.sort]

    The comparator's number is [None] when it is [NaN], which the sort
    reads as [0].  The sort is stable, and for a consistent comparator every
    stable sort returns the same array: that array is what the model
    returns.  For a comparator that is not consistent - one that answers
    [NaN] for some pairs and a sign for others - the outcome depends on the
    order in which the engine calls it; the model then gives the outcome of
    the straight insertion sort, and only statements that hold for every
    order of the calls (the array is a permutation of what it was) are to be
    read as statements about every engine.  The sorted prefix is kept
    reversed, so that the new element is compared with its left neighbours
    from the right. *)
Section Sort.
Context {A : Type}.
Variable comparefn : A -> A -> option Z.

Definition sortCompare (x y : A) : Z := default 0%Z (comparefn x y).

Fixpoint insert_rev (x : A) (racc : list A) : list A :=
  match racc with
  | [] => [x]
  | y :: r => if (0 <? sortCompare y x)%Z then y :: insert_rev x r
              else x :: racc
  end.

Definition js_sort (l : list A) : list A :=
  rev (fold_left (fun racc x => insert_rev x racc) l []).
End Sort.

Definition slice {A} (a b : nat) (l : list A) : list A :=
  firstn (b - a) (skipn a l).

Definition dec (n : nat) : str := ustr (NilEmpty.string_of_uint (Nat.to_uint n)).

(** ** Small helpers of the script *)

Section Script.
Context {H : Host}.

Definition normalize (s : str) : str := JS.trim (toLowerCase s).

Definition fmtDate (iso : option str) : str :=
  match iso with
  | Some ((_ :: _) as s) =>
      match date_parse s with
      | None => s
      | Some t => toLocaleDateString t
      end
  | _ => []
  end.

Fixpoint set_add (t : str) (seen : list str) : list str :=
  match seen with
  | [] => [t]
  | x :: r => if str_eqb x t then seen else x :: set_add t r
  end.

Definition uniqueTags (items : list Project) : list str :=
  js_sort (fun a b => Some (localeCompare a b))
    (fold_left
       (fun set p => fold_left (fun set t => set_add t set) (default [] (tags p)) set)
       items []).

(** *** The feed *)

Definition quoted (s : string) : str := [Md.quot] ++ ustr s ++ [Md.quot].
Definition nl : str := [Md.newline].

(** [location.href] with a final [/index.html] or [/index.htm] cut back
    to the slash. *)
Definition base : str :=
  let r := rev location_href in
  if JS.startsWith (rev (ustr "/index.html")) r then rev (skipn 10 r)
  else if JS.startsWith (rev (ustr "/index.htm")) r then rev (skipn 9 r)
  else location_href.

Definition item_link (p : Project) : str :=
  match links p with
  | Some (l :: _) => or_else (url l) base
  | _ => base
  end.

Definition item_pubDate (p : Project) : str :=
  match date p with
  | Some ((_ :: _) as d) => toUTCString (date_parse d)
  | _ => toUTCString (Some now)
  end.

Definition item_guid (i : nat) (p : Project) : str :=
  or_else (id_ p) (or_else (title p) (random i)).

Definition rss_item (i : nat) (p : Project) : str :=
  nl ++ ustr "    <item>" ++ nl
  ++ ustr "      <title><![CDATA[" ++ or_else (title p) [] ++ ustr "]]></title>" ++ nl
  ++ ustr "      <link>" ++ item_link p ++ ustr "</link>" ++ nl
  ++ ustr "      <description><![CDATA[" ++ or_else (description p) []
  ++ ustr "]]></description>" ++ nl
  ++ ustr "      <pubDate>" ++ item_pubDate p ++ ustr "</pubDate>" ++ nl
  ++ ustr "      <guid isPermaLink=" ++ quoted "false" ++ ustr ">"
  ++ item_guid i p ++ ustr "</guid>" ++ nl
  ++ ustr "    </item>".

Definition rss_head : str :=
  ustr "<?xml version=" ++ quoted "1.0" ++ ustr " encoding=" ++ quoted "UTF-8"
  ++ ustr "?>" ++ nl
  ++ ustr "<rss version=" ++ quoted "2.0" ++ ustr ">" ++ nl
  ++ ustr "  <channel>" ++ nl
  ++ ustr "    <title>David de la Montombre " ++ [8212%N]
  ++ ustr " Experimental Works</title>" ++ nl
  ++ ustr "    <link>" ++ base ++ ustr "</link>" ++ nl
  ++ ustr "    <description>Project updates</description>" ++ nl
  ++ ustr "    ".

Definition rss_tail : str :=
  nl ++ ustr "  </channel>" ++ nl ++ ustr "</rss>".

(** The text [xml] of one call of [makeRSS]; the function hands it out as
    the address of a new blob.  [now] and [random] are what that call reads
    from the clock and from [Math.random]: the text of two calls is not
    compared anywhere, as both may have changed in between. *)
Definition makeRSS (items : list Project) : str :=
  rss_head
  ++ JS.join [] (imap rss_item (slice 0 30 items))
  ++ rss_tail.

End Script.

(** ** The page: store, document and script state *)

Definition loc := positive.

Record Card := {
  card_title : str;
  card_date : str;
  card_badges : list str;
  card_gallery_hidden : bool;
  card_images : list (option str * str);
  card_desc : str;
  card_tags : list str;
  card_links : list (option str * str)
}.

(** What [els.grid] holds: the cards appended by [render], or markup
    assigned through [innerHTML]. *)
Inductive Grid :=
| Cards (cs : list Card)
| Markup (html : str).

Inductive Control := Search | TagFilter | ShowDrafts | ShowArchived | ShowPrivate.

Record Page := {
  (** the arrays of projects, by reference *)
  heap : gmap loc (list Project);
  (** the variable [all] *)
  all : loc;
  grid : Grid;
  count : str;
  rssLink : option str;
  tagOptions : list str;
  listeners : list (Control * string);
  (** the controls, as the visitor has set them *)
  search_value : str;
  tagFilter_value : str;
  showDrafts_checked : bool;
  showArchived_checked : bool;
  showPrivate_checked : bool
}.

Definition with_heap (h : gmap loc (list Project)) (st : Page) : Page :=
  {| heap := h; all := all st; grid := grid st; count := count st;
     rssLink := rssLink st; tagOptions := tagOptions st;
     listeners := listeners st; search_value := search_value st;
     tagFilter_value := tagFilter_value st;
     showDrafts_checked := showDrafts_checked st;
     showArchived_checked := showArchived_checked st;
     showPrivate_checked := showPrivate_checked st |}.

Definition with_all (l : loc) (st : Page) : Page :=
  {| heap := heap st; all := l; grid := grid st; count := count st;
     rssLink := rssLink st; tagOptions := tagOptions st;
     listeners := listeners st; search_value := search_value st;
     tagFilter_value := tagFilter_value st;
     showDrafts_checked := showDrafts_checked st;
     showArchived_checked := showArchived_checked st;
     showPrivate_checked := showPrivate_checked st |}.

Definition with_grid (g : Grid) (st : Page) : Page :=
  {| heap := heap st; all := all st; grid := g; count := count st;
     rssLink := rssLink st; tagOptions := tagOptions st;
     listeners := listeners st; search_value := search_value st;
     tagFilter_value := tagFilter_value st;
     showDrafts_checked := showDrafts_checked st;
     showArchived_checked := showArchived_checked st;
     showPrivate_checked := showPrivate_checked st |}.

Definition with_count (c : str) (st : Page) : Page :=
  {| heap := heap st; all := all st; grid := grid st; count := c;
     rssLink := rssLink st; tagOptions := tagOptions st;
     listeners := listeners st; search_value := search_value st;
     tagFilter_value := tagFilter_value st;
     showDrafts_checked := showDrafts_checked st;
     showArchived_checked := showArchived_checked st;
     showPrivate_checked := showPrivate_checked st |}.

Definition with_rssLink (r : option str) (st : Page) : Page :=
  {| heap := heap st; all := all st; grid := grid st; count := count st;
     rssLink := r; tagOptions := tagOptions st;
     listeners := listeners st; search_value := search_value st;
     tagFilter_value := tagFilter_value st;
     showDrafts_checked := showDrafts_checked st;
     showArchived_checked := showArchived_checked st;
     showPrivate_checked := showPrivate_checked st |}.

Definition with_tagOptions (o : list str) (st : Page) : Page :=
  {| heap := heap st; all := all st; grid := grid st; count := count st;
     rssLink := rssLink st; tagOptions := o;
     listeners := listeners st; search_value := search_value st;
     tagFilter_value := tagFilter_value st;
     showDrafts_checked := showDrafts_checked st;
     showArchived_checked := showArchived_checked st;
     showPrivate_checked := showPrivate_checked st |}.

Definition with_listeners (l : list (Control * string)) (st : Page) : Page :=
  {| heap := heap st; all := all st; grid := grid st; count := count st;
     rssLink := rssLink st; tagOptions := tagOptions st;
     listeners := l; search_value := search_value st;
     tagFilter_value := tagFilter_value st;
     showDrafts_checked := showDrafts_checked st;
     showArchived_checked := showArchived_checked st;
     showPrivate_checked := showPrivate_checked st |}.

(** The contents of an array; a dangling reference reads as empty. *)
Definition deref (st : Page) (l : loc) : list Project :=
  default [] (heap st !! l).

(** What the network and the body of the response turn out to be. *)
Inductive Body :=
| NotJson
| Json (projects : option (list Project)).

Inductive Fetched :=
| Unreachable
| Response (body : Body).

Inductive Exn := NetworkError | SyntaxError.

(** Script code: it reads and writes the page and may throw. *)
Definition M (A : Type) : Type := Page -> (Exn + A) * Page.

Definition ret {A} (a : A) : M A := fun st => (inr a, st).
Definition throw {A} (e : Exn) : M A := fun st => (inl e, st).
Definition bind {A B} (c : M A) (k : A -> M B) : M B :=
  fun st => match c st with
            | (inl e, st') => (inl e, st')
            | (inr a, st') => k a st'
            end.
Definition get : M Page := fun st => (inr st, st).
Definition modify (f : Page -> Page) : M unit := fun st => (inr tt, f st).

Notation "'let*' x ':=' c 'in' k" := (bind c (fun x => k))
  (at level 10, x name, c at level 100, k at level 200).

(** A new array holding [v]. *)
Definition alloc (v : list Project) : M loc :=
  fun st =>
    let l := fresh (dom (heap st)) in
    (inr l, with_heap (<[l := v]> (heap st)) st).

(** [a.slice()] *)
Definition slice_copy (a : loc) : M loc :=
  let* st := get in alloc (deref st a).

(** [a.sort(f)]: in place, and the same array is the result. *)
Definition sort_in_place (f : Project -> Project -> option Z) (a : loc) : M loc :=
  let* _ := modify (fun st => with_heap (<[a := js_sort f (deref st a)]> (heap st)) st) in
  ret a.

(** [a.filter(f)] *)
Definition filter_new (f : Project -> bool) (a : loc) : M loc :=
  let* st := get in alloc (List.filter f (deref st a)).

Section Page.
Context {H : Host}.

Definition badges_of (p : Project) : list str :=
  (if truthy (status p) then [or_empty (status p)] else [])
  ++ (if isDraft p then [ustr "Draft"] else [])
  ++ (if isArchived p then [ustr "Archived"] else [])
  ++ (if isPrivate p then [ustr "Private"] else []).

Definition image_of (p : Project) (img : Image) : option str * str :=
  match img with
  | ImagePath s => (Some s, or_else (title p) (ustr "project image"))
  | ImageObject src alt =>
      (src, or_else alt (or_else (title p) (ustr "project image")))
  end.

(** The card that one round of the [forEach] of [render] fills in. *)
Definition card_of (p : Project) : Card :=
  {| card_title := or_else (title p) (ustr "Untitled");
     card_date := if truthy (date p)
                  then ustr "Updated: " ++ fmtDate (date p) else [];
     card_badges := badges_of p;
     card_gallery_hidden :=
       match default [] (images p) with [] => true | _ :: _ => false end;
     card_images := List.map (image_of p) (default [] (images p));
     card_desc := Md.mdToHtml (or_else (description p) []);
     card_tags := default [] (tags p);
     card_links :=
       List.map (fun l => (url l, or_else (label l) (ustr "Link")))
                (default [] (links p)) |}.

Definition render (items : loc) : M unit :=
  let* _ := modify (with_grid (Cards [])) in
  let* st := get in
  let* _ := modify (with_grid (Cards (List.map card_of (deref st items)))) in
  let* _ := modify (with_count
            (dec (length (deref st items)) ++ ustr " project"
             ++ (if Nat.eqb (length (deref st items)) 1 then [] else ustr "s"))) in
  let* st' := get in
  modify (with_rssLink (Some (makeRSS (deref st' (all st'))))).

(** The callback of [all.filter] in [applyFilters]. *)
Definition keep (q tag : str) (showDrafts showArchived showPrivate : bool)
    (p : Project) : bool :=
  if isPrivate p && negb showPrivate then false
  else if isDraft p && negb showDrafts then false
  else if isArchived p && negb showArchived then false
  else
    let hay :=
      normalize (JS.join (ustr " ")
                   [or_empty (title p); or_empty (description p);
                    JS.join (ustr " ") (default [] (tags p))]) in
    let matchQ := match q with [] => true | _ :: _ => JS.includes hay q end in
    let matchTag :=
      match tag with
      | [] => true
      | _ :: _ => existsb (str_eqb tag) (default [] (tags p))
      end in
    matchQ && matchTag.

(** The array [filtered] that [applyFilters] hands to [render]. *)
Definition filtered_view (st : Page) : list Project :=
  List.filter
    (keep (normalize (search_value st)) (tagFilter_value st)
          (showDrafts_checked st) (showArchived_checked st)
          (showPrivate_checked st))
    (deref st (all st)).

Definition applyFilters : M unit :=
  let* st := get in
  let q := normalize (search_value st) in
  let tag := tagFilter_value st in
  let showDrafts := showDrafts_checked st in
  let showArchived := showArchived_checked st in
  let showPrivate := showPrivate_checked st in
  let* filtered := filter_new (keep q tag showDrafts showArchived showPrivate) (all st) in
  render filtered.

(** The time value the comparator of [init] reads off a project. *)
Definition timestamp (p : Project) : option Z :=
  match date p with
  | Some ((_ :: _) as d) => date_parse d
  | _ => Some 0%Z
  end.

(** [(a, b) => bd - ad].  Time values are integers of magnitude at most
    8.64e15, so the sign of the difference is that of the exact difference;
    with a [NaN] on either side the difference is [NaN]. *)
Definition by_date_desc (a b : Project) : option Z :=
  match timestamp a, timestamp b with
  | Some ad, Some bd => Some (bd - ad)%Z
  | _, _ => None
  end.

Definition fetch (f : Fetched) : M Body :=
  match f with
  | Unreachable => throw NetworkError
  | Response b => ret b
  end.

(** [res.json()]: the parsed [data.projects], a fresh array when present. *)
Definition json (b : Body) : M (option loc) :=
  match b with
  | NotJson => throw SyntaxError
  | Json None => ret None
  | Json (Some ps) => let* l := alloc ps in ret (Some l)
  end.

(** [init] after its two [await]s, from the parsed [data.projects]. *)
Definition init_from (data_projects : option loc) : M unit :=
  let* src := match data_projects with
              | Some l => ret l
              | None => alloc []
              end in
  let* copy := slice_copy src in
  let* sorted := sort_in_place by_date_desc copy in
  let* _ := modify (with_all sorted) in
  let* st := get in
  let* _ := modify (with_tagOptions (tagOptions st ++ uniqueTags (deref st (all st)))) in
  let* _ := modify (fun st =>
            with_listeners
              (listeners st
               ++ [(Search, "input"%string); (TagFilter, "change"%string);
                   (ShowDrafts, "change"%string); (ShowArchived, "change"%string);
                   (ShowPrivate, "change"%string)]) st) in
  applyFilters.

Definition init (f : Fetched) : M unit :=
  let* res := fetch f in
  let* data_projects := json res in
  init_from data_projects.

Definition error_card : str :=
  ustr "<div class=" ++ quoted "card" ++ ustr "><p style="
  ++ quoted "color:rgba(167,173,187,.95);margin:0" ++ ustr ">" ++ nl
  ++ ustr "      Could not load <code>data.json</code>. Host this folder using GitHub Pages / Netlify / Vercel so <code>fetch()</code> works."
  ++ nl ++ ustr "    </p></div>".

(** [init().catch(err => ...)] *)
Definition main (f : Fetched) (st : Page) : Page :=
  match init f st with
  | (inl _, st') => with_grid (Markup error_card) st'
  | (inr _, st') => st'
  end.

End Page.

(** The page as the script finds it: [all] is a fresh empty array. *)
Definition initial_page : Page :=
  {| heap := {[ 1%positive := [] ]}; all := 1%positive;
     grid := Cards []; count := []; rssLink := None; tagOptions := [];
     listeners := []; search_value := []; tagFilter_value := [];
     showDrafts_checked := false; showArchived_checked := false;
     showPrivate_checked := false |}.

(** ** The shape of sanitized markup

    A string is read as a sequence of tokens.  Text is made of characters
    other than the four special ones and of the four entities; markup adds
    a fixed list of tags and the opening tag of an anchor, whose address
    is text. *)

Module Html.
Import Md.

Definition special (c : char) : bool :=
  ceq c amp || ceq c lt || ceq c gt || ceq c quot.

Definition entities : list str :=
  [ustr "&amp;"; ustr "&lt;"; ustr "&gt;"; ustr "&quot;"].

Inductive Toks (tok : str -> Prop) : str -> Prop :=
| Toks_nil : Toks tok []
| Toks_cons t s : tok t -> Toks tok s -> Toks tok (t ++ s).

Definition text_tok (t : str) : Prop :=
  (exists c, t = [c] /\ special c = false) \/ In t entities.

Definition Text : str -> Prop := Toks text_tok.

Definition code_tags : list str := [ustr "<code>"; ustr "</code>"].

(** What the code replacement leaves: text and [code] tags. *)
Definition coded_tok (t : str) : Prop := text_tok t \/ In t code_tags.

Definition inline_tags : list str := code_tags ++ [ustr "</a>"].

Definition block_tags : list str :=
  [ustr "<p>"; ustr "</p>"; ustr "<h1>"; ustr "</h1>"; ustr "<h2>"; ustr "</h2>";
   ustr "<h3>"; ustr "</h3>"; ustr "<ul>"; ustr "</ul>"; ustr "<li>"; ustr "</li>";
   ustr "<blockquote>"; ustr "</blockquote>"].

Definition markup_tok (tags : list str) (t : str) : Prop :=
  text_tok t \/ In t tags \/ exists u, Text u /\ t = anchor_open u.

(** Markup over the tags [tags]: every special character of the string
    belongs to an entity, to one of [tags] or to an anchor's opening tag. *)
Definition Sanitized (tags : list str) : str -> Prop := Toks (markup_tok tags).

(** The reading of one character by [esc]. *)
Definition esc_char (c : char) : str :=
  if ceq c amp then ustr "&amp;"
  else if ceq c lt then ustr "&lt;"
  else if ceq c gt then ustr "&gt;"
  else if ceq c quot then ustr "&quot;"
  else [c].

(** No list inside a list: scanning for the two list tags, an opening tag
    is never met while a list is open.  [open] tells whether one is. *)
Fixpoint ul_flat (open : bool) (s : str) : bool :=
  match s with
  | [] => true
  | _ :: r =>
      if JS.startsWith (ustr "<ul>") s then negb open && ul_flat true r
      else if JS.startsWith (ustr "</ul>") s then ul_flat false r
      else ul_flat open r
  end.

End Html.

(** ** What is stated about the converter *)

Module MdShape.
Import JS Md Html.

(** The characters the two expressions look for occur in no entity and
    in no [code] tag. *)
Definition cutting (d : char) : Prop :=
  In d [backtick; lbracket; rbracket; lparen; rparen].

Definition all_tags : list str := inline_tags ++ block_tags.

Definition sane (st : state) : Prop := Forall (Sanitized all_tags) (out st).

(** A piece of output that the scan for list tags passes over. *)
Definition neutral (x : str) : Prop :=
  forall b rest, ul_flat b (x ++ rest) = ul_flat b rest.

(** The blocks other than the two list tags. *)
Definition plain_blocks : list string :=
  ["p"; "h1"; "h2"; "h3"; "li"; "blockquote"]%string.

(** How the array [out] grows: by a block, by an opening list tag when
    no list is open, by a closing list tag.  The flag is [inList]. *)
Inductive Built : list str -> bool -> Prop :=
| Built_nil : Built [] false
| Built_open l : Built l false -> Built (l ++ [ustr "<ul>"]) true
| Built_close l b : Built l b -> Built (l ++ [ustr "</ul>"]) false
| Built_block l b x : neutral x -> Built l b -> Built (l ++ [x]) b.

Definition built (st : state) : Prop := Built (out st) (inList st).

(** A raw line that the list item expression matches once its trailing
    whitespace is cut. *)
Definition is_item (raw : str) : bool :=
  match match_li (trimEnd raw) with Some _ => true | None => false end.

(** The element [step] pushes for an item line. *)
Definition li_html (raw : str) : str :=
  match match_li (trimEnd raw) with
  | Some t => wrap "li" (inline t)
  | None => []
  end.

Definition open_list (st : state) : state :=
  if inList st then st else {| out := out st ++ [ustr "<ul>"]; inList := true |}.

(** The same loop, with [x] already in [out]. *)
Definition shift (x : list str) (st : state) : state :=
  {| out := x ++ out st; inList := inList st |}.

(** After what the lines [before] leave, is no list open?  That is so at
    the start and after any line that is not an item. *)
Definition ends_closed (before : list str) : bool :=
  match rev before with [] => true | x :: _ => negb (is_item x) end.

Definition starts_other (after : list str) : bool :=
  match after with [] => true | x :: _ => negb (is_item x) end.


(** The wording "a line beginning with [- ] or [* ]". *)
Definition begins_with_marker (raw : str) : bool :=
  startsWith (ustr "- ") raw || startsWith (ustr "* ") raw.

(** The elements of one list of [n] items and nothing else. *)
Definition single_list (n : nat) (html : list str) : Prop :=
  exists lis,
    length lis = n /\ html = [ustr "<ul>"] ++ lis ++ [ustr "</ul>"].

End MdShape.

(** ** What is stated about the page *)

(** [a >= b] on time values, false as soon as one of them is [NaN]. *)
Definition ge_time (a b : option Z) : bool :=
  match a, b with
  | Some x, Some y => (y <=? x)%Z
  | _, _ => false
  end.

(** [R] holds between every element and the next one. *)
Fixpoint chain {A} (R : A -> A -> bool) (l : list A) : bool :=
  match l with
  | [] => true
  | a :: r => match r with [] => true | b :: _ => R a b && chain R r end
  end.

(** Every time value is [>=] the next one. *)
Definition descending (l : list (option Z)) : bool := chain ge_time l.

Section PageSpec.
Context {H : Host}.

(** The text a query is looked up in: title, description and tags put
    together, one space between them, in lower case. *)
Definition haystack (p : Project) : str :=
  toLowerCase
    (JS.join (ustr " ")
       [or_empty (title p); or_empty (description p);
        JS.join (ustr " ") (default [] (tags p))]).

(** When a project is to be shown, in the words of the specification. *)
Definition visible (st : Page) (p : Project) : Prop :=
  (isPrivate p = false \/ showPrivate_checked st = true) /\
  (isDraft p = false \/ showDrafts_checked st = true) /\
  (isArchived p = false \/ showArchived_checked st = true) /\
  (normalize (search_value st) = [] \/
   JS.includes (haystack p) (normalize (search_value st)) = true) /\
  (tagFilter_value st = [] \/ In (tagFilter_value st) (default [] (tags p))).

(** The page after [applyFilters]: one new array, the view, and the
    grid, the counter and the feed link set from it. *)
Definition after_filters (st : Page) : Page :=
  let view := filtered_view st in
  let st1 := with_heap (<[fresh (dom (heap st)) := view]> (heap st)) st in
  with_rssLink (Some (makeRSS (deref st1 (all st))))
    (with_count
       (dec (length view) ++ ustr " project"
        ++ (if Nat.eqb (length view) 1 then [] else ustr "s"))
       (with_grid (Cards (List.map card_of view)) st1)).

(** The page after the part of [init] that follows the two [await]s,
    before its call of [applyFilters]: [src] is the array [data.projects]
    or the empty array that stands for it. *)
Definition loaded (src : loc) (st : Page) : Page :=
  let copy := fresh (dom (heap st)) in
  let sorted := js_sort by_date_desc (deref st src) in
  with_listeners
    (listeners st
     ++ [(Search, "input"%string); (TagFilter, "change"%string);
         (ShowDrafts, "change"%string); (ShowArchived, "change"%string);
         (ShowPrivate, "change"%string)])
    (with_tagOptions (tagOptions st ++ uniqueTags sorted)
       (with_all copy
          (with_heap (<[copy := sorted]> (<[copy := deref st src]> (heap st))) st))).

(** The sorted prefix, read from its end: every project is at most as
    recent as the next. *)
Definition rising (racc : list Project) : bool :=
  chain (fun a b => ge_time (timestamp b) (timestamp a)) racc.

End PageSpec.

(** Two pages that differ at most in the listed toggles. *)
Definition same_data (st st' : Page) : Prop :=
  heap st = heap st' /\ all st = all st' /\
  search_value st = search_value st' /\ tagFilter_value st = tagFilter_value st'.

(** The store of [st'] has every array of [st], with the same contents. *)
Definition extends (st st' : Page) : Prop :=
  forall l v, heap st !! l = Some v -> heap st' !! l = Some v.

(** A host for the examples.  It agrees with a browser on the strings the
    examples use: ASCII letters, the dates of the table, a page served as
    [index.html]. *)
Definition ascii_lower (c : char) : char :=
  if (N.leb 65 c && N.leb c 90)%bool then (c + 32)%N else c.

Definition example_dates : list (string * Z * string) :=
  [("2020-01-01", 1577836800000%Z, "Wed, 01 Jan 2020 00:00:00 GMT");
   ("2021-06-01", 1622505600000%Z, "Tue, 01 Jun 2021 00:00:00 GMT")]%string.

Fixpoint compare_units (a b : str) : Z :=
  match a, b with
  | [], [] => 0
  | [], _ :: _ => -1
  | _ :: _, [] => 1
  | x :: a', y :: b' =>
      if N.ltb x y then -1 else if N.ltb y x then 1 else compare_units a' b'
  end%Z.

Definition exampleHost : Host :=
  {| toLowerCase := List.map ascii_lower;
     date_parse := fun s =>
       match List.find (fun e => str_eqb (ustr (fst (fst e))) s) example_dates with
       | Some e => Some (snd (fst e))
       | None => None
       end;
     toUTCString := fun t =>
       match t with
       | None => ustr "Invalid Date"
       | Some v =>
           match List.find (fun e => Z.eqb (snd (fst e)) v) example_dates with
           | Some e => ustr (snd e)
           | None => ustr "Thu, 01 Jan 1970 00:00:00 GMT"
           end
       end;
     toLocaleDateString := fun v =>
       if Z.eqb v 1577836800000 then ustr "Jan 01, 2020"
       else if Z.eqb v 1622505600000 then ustr "Jun 01, 2021"
       else ustr "Jan 01, 1970";
     localeCompare := compare_units;
     now := 0%Z;
     random := fun _ => ustr "0.5";
     location_href := ustr "https://example.org/works/index.html" |}.


(** A project with a title, a date and a description, and nothing else. *)
Definition project (t d descr : string) : Project :=
  {| id_ := None; title := Some (ustr t); date := Some (ustr d);
     description := Some (ustr descr); status := None; tags := None;
     links := None; images := None;
     isDraft := false; isArchived := false; isPrivate := false |}.

(** The visitor sets the controls. *)
Definition set_controls (q tag : str) (d a v : bool) (st : Page) : Page :=
  {| heap := heap st; all := all st; grid := grid st; count := count st;
     rssLink := rssLink st; tagOptions := tagOptions st;
     listeners := listeners st; search_value := q; tagFilter_value := tag;
     showDrafts_checked := d; showArchived_checked := a;
     showPrivate_checked := v |}.

(** Three projects, the second with a date that is no date. *)
Definition undated_example : list Project :=
  [project "A" "2020-01-01" "first"; project "X" "soon" "second";
   project "B" "2021-06-01" "third"].

(** The page once the three projects are loaded. *)
Definition example_page : Page :=
  main (H := exampleHost) (Response (Json (Some undated_example))) initial_page.

(** ** More to state about the converter *)

Module MdView.
Import JS Md Html MdShape.

(** One of the two list tags, as an element of [out]. *)
Definition is_list_tag (x : str) : bool :=
  str_eqb x (ustr "<ul>") || str_eqb x (ustr "</ul>").

(** The element the loop pushes for a line, if it pushes one: what [step]
    adds last when it starts from the empty [out]. *)
Definition element (raw : str) : option str :=
  match rev (out (step {| out := []; inList := false |} raw)) with
  | [] => None
  | x :: _ => Some x
  end.

(** The list tags of [n] lists, one after the other. *)
Definition lists (n : nat) : list str :=
  concat (repeat [ustr "<ul>"; ustr "</ul>"] n).

Definition crlf : str := [13%N; 10%N].

(** No character of [s] is one of the four that [esc] rewrites. *)
Definition plain (s : str) : bool := forallb (fun c => negb (special c)) s.

(** The line has no line feed and no carriage return. *)
Definition no_breaks (l : str) : bool :=
  forallb (fun c => negb (ceq c 10%N || ceq c 13%N)) l.

(** The elements of [out] that are not list tags. *)
Definition content (o : list str) : list str :=
  List.filter (fun x => negb (is_list_tag x)) o.

(** The list tags pushed so far: whole lists, and an opening tag when a
    list is open. *)
Definition list_tags_ok (st : state) : Prop :=
  exists n, List.filter is_list_tag (out st)
            = lists n ++ (if inList st then [ustr "<ul>"] else []).

End MdView.

(** ** More to state about the page *)

(** The comparator never puts two of the elements of [l] each before the
    other: where it is positive one way it is not positive the other way. *)
Definition antisymmetric_on {A} (comparefn : A -> A -> option Z) (l : list A) : bool :=
  forallb
    (fun a =>
       forallb
         (fun b => implb (0 <? sortCompare comparefn a b)%Z
                         (sortCompare comparefn b a <=? 0)%Z) l) l.

(** Every element is put before the next one, or with it, by the
    comparator. *)
Definition in_order {A} (comparefn : A -> A -> option Z) (l : list A) : bool :=
  chain (fun a b => (sortCompare comparefn a b <=? 0)%Z) l.

(** The same for the sorted prefix of the sort, kept last element first. *)
Definition falling {A} (comparefn : A -> A -> option Z) (racc : list A) : bool :=
  chain (fun y x => (sortCompare comparefn x y <=? 0)%Z) racc.

Definition time_eqb (a b : option Z) : bool :=
  match a, b with
  | Some x, Some y => Z.eqb x y
  | None, None => true
  | _, _ => false
  end.

(** A project with none of the three flags. *)
Definition unflagged (p : Project) : bool :=
  negb (isPrivate p) && negb (isDraft p) && negb (isArchived p).

Definition has_tag (t : str) (p : Project) : bool :=
  existsb (str_eqb t) (default [] (tags p)).


(** A project with tags and flags, for the examples. *)
Definition tagged (t : string) (ts : list string) (d a v : bool) : Project :=
  {| id_ := None; title := Some (ustr t); date := None;
     description := None; status := None; tags := Some (List.map ustr ts);
     links := None; images := None;
     isDraft := d; isArchived := a; isPrivate := v |}.

Definition tagged_example : list Project :=
  [tagged "One" ["web"%string; "art"%string] false false false;
   tagged "Two" ["art"%string; "code"%string] true false false;
   tagged "Three" [] false false true].

(** [s.endsWith(suf)] *)
Definition ends_with (suf s : str) : bool := JS.startsWith (rev suf) (rev s).

(** The test of [applyFilters] when there is no query and no tag. *)
Definition passes (d a v : bool) (p : Project) : bool :=
  implb (isPrivate p) v && implb (isDraft p) d && implb (isArchived p) a.

(** The page once the three tagged projects are loaded. *)
Definition tagged_page : Page :=
  main (H := exampleHost) (Response (Json (Some tagged_example))) initial_page.

(** Four dated projects, two of them of the same day. *)
Definition same_day_example : list Project :=
  [project "A" "2020-01-01" "a"; project "B" "2021-06-01" "b";
   project "C" "2020-01-01" "c"; project "D" "2021-06-01" "d"].

(** ** Counting the items of the feed *)







(** What stays on the page between two runs of [applyFilters]: the grid,
    the counter and the tag options.  The feed link is left out, it is
    the address of a blob made anew at every [render]. *)
Definition displayed (st : Page) : Grid * str * list str :=
  (grid st, count st, tagOptions st).

(** * Properties *)

Lemma ceq_spec a b : reflect (a = b) (ceq a b).
Proof. apply N.eqb_spec. Qed.

(** ** Strings of the host *)

Module JSFacts.
Import JS.

Lemma span_spec f s a b :
  span f s = (a, b) ->
  s = a ++ b /\ forallb f a = true /\
  match b with [] => True | c :: _ => f c = false end.
Proof.
  revert a b. induction s as [|c r IH]; simpl; intros a b E.
  - inversion E; subst. auto.
  - destruct (f c) eqn:Fc.
    + destruct (span f r) as [a' b'] eqn:Er. inversion E; subst.
      destruct (IH a' b eq_refl) as (-> & Ha & Hb).
      simpl. rewrite Fc, Ha. auto.
    + inversion E; subst. simpl. rewrite Fc. auto.
Qed.

Lemma span_all f s : forallb f s = true -> span f s = (s, []).
Proof.
  induction s as [|c r IH]; simpl; auto.
  intros E. apply andb_prop in E as [-> E]. now rewrite IH.
Qed.


Section ReplaceAllFacts.
Variable m : str -> option (str * str).
Hypothesis m_shrinks :
  forall s r rest, m s = Some (r, rest) -> length rest < length s.

Lemma replace_all_aux_enough n s :
  length s <= n -> replace_all_aux m n s = replace_all m s.
Proof using m_shrinks.
  unfold replace_all.
  remember (length s) as k eqn:Hk.
  revert n s Hk. induction k as [k IH] using lt_wf_ind.
  intros n s -> Hn. destruct s as [|c rest].
  - destruct n; reflexivity.
  - destruct n as [|n]; [simpl in Hn; lia|]. simpl.
    destruct (m (c :: rest)) as [[r rest']|] eqn:E.
    + apply m_shrinks in E as L. simpl in L.
      rewrite (IH (length rest')) by (simpl in *; lia).
      rewrite (IH (length rest') ltac:(simpl; lia) (length rest) rest') by lia.
      reflexivity.
    + rewrite (IH (length rest)) by (simpl in *; lia). reflexivity.
Qed.


Lemma replace_all_cons c rest :
  replace_all m (c :: rest) =
  match m (c :: rest) with
  | Some (r, rest') => r ++ replace_all m rest'
  | None => c :: replace_all m rest
  end.
Proof using m_shrinks.
  unfold replace_all at 1. simpl.
  destruct (m (c :: rest)) as [[r rest']|] eqn:E.
  - apply m_shrinks in E. simpl in E.
    rewrite replace_all_aux_enough by lia. reflexivity.
  - reflexivity.
Qed.
End ReplaceAllFacts.

Lemma dropWhile_app_stop f l c r :
  f c = false -> dropWhile f (l ++ c :: r) = dropWhile f l ++ c :: r.
Proof.
  intros Hc. induction l as [|x l IH]; simpl.
  - now rewrite Hc.
  - destruct (f x); [exact IH | reflexivity].
Qed.

Lemma trimEnd_cons c r : is_ws c = false -> trimEnd (c :: r) = c :: trimEnd r.
Proof.
  intros Hc. unfold trimEnd. simpl.
  rewrite dropWhile_app_stop by exact Hc.
  rewrite rev_app_distr. reflexivity.
Qed.

Lemma trim_cons c r : is_ws c = false -> trim (c :: r) = c :: trimEnd r.
Proof.
  intros Hc. unfold trim, trimStart. simpl. rewrite Hc.
  now apply trimEnd_cons.
Qed.

Lemma dropWhile_decomp f s :
  exists w, s = w ++ dropWhile f s /\ forallb f w = true.
Proof.
  induction s as [|c s (w & E & Hw)]; simpl.
  - now exists [].
  - destruct (f c) eqn:Fc.
    + exists (c :: w). simpl. rewrite Fc, Hw. split; [now f_equal | reflexivity].
    + now exists [].
Qed.

Lemma dropWhile_head f s :
  match dropWhile f s with [] => True | c :: _ => f c = false end.
Proof.
  induction s as [|c s IH]; simpl; [exact I|].
  destruct (f c) eqn:Fc; [exact IH | exact Fc].
Qed.

Lemma dropWhile_app_keep f l k :
  dropWhile f l <> [] -> dropWhile f (l ++ k) = dropWhile f l ++ k.
Proof.
  induction l as [|x l IH]; simpl; [congruence|].
  destruct (f x); [exact IH | reflexivity].
Qed.

Lemma dropWhile_all f s : forallb f s = true -> dropWhile f s = [].
Proof.
  induction s as [|c s IH]; simpl; [reflexivity|].
  intros E. apply andb_prop in E as [-> E]. auto.
Qed.

Lemma span_snd f s : snd (span f s) = dropWhile f s.
Proof.
  induction s as [|c s IH]; simpl; [reflexivity|].
  destruct (f c); [|reflexivity]. destruct (span f s). exact IH.
Qed.

Lemma forallb_rev {A} (f : A -> bool) l : forallb f (rev l) = forallb f l.
Proof.
  induction l as [|x l IH]; simpl; [reflexivity|].
  rewrite forallb_app, IH. simpl. rewrite andb_true_r. apply andb_comm.
Qed.

(** [trimEnd] cuts a run of whitespace off the end, and what is left
    does not end in whitespace. *)
Lemma trimEnd_decomp s :
  exists w, s = trimEnd s ++ w /\ forallb is_ws w = true.
Proof.
  unfold trimEnd. destruct (dropWhile_decomp is_ws (rev s)) as (w & E & Hw).
  exists (rev w). split; [|now rewrite forallb_rev].
  rewrite <- rev_app_distr, <- E. symmetry. apply rev_involutive.
Qed.

Lemma trimEnd_last s :
  trimEnd s = [] \/ exists a c, trimEnd s = a ++ [c] /\ is_ws c = false.
Proof.
  unfold trimEnd. pose proof (dropWhile_head is_ws (rev s)) as Hh.
  destruct (dropWhile is_ws (rev s)) as [|c r]; [now left|].
  right. exists (rev r), c. split; [reflexivity | exact Hh].
Qed.

Lemma trimEnd_cons_keep x r : trimEnd r <> [] -> trimEnd (x :: r) = x :: trimEnd r.
Proof.
  unfold trimEnd. intros Hne. simpl.
  rewrite dropWhile_app_keep.
  - now rewrite rev_app_distr.
  - intros E. apply Hne. now rewrite E.
Qed.

(** What [trimEnd] gives is determined by the two facts above. *)
Lemma trimEnd_unique a w :
  forallb is_ws w = true ->
  (a = [] \/ exists a' c, a = a' ++ [c] /\ is_ws c = false) ->
  trimEnd (a ++ w) = a.
Proof.
  intros Hw Ha. unfold trimEnd. rewrite rev_app_distr.
  assert (forall k, dropWhile is_ws (rev w ++ k) = dropWhile is_ws k) as Hd.
  { intros k. rewrite <- forallb_rev in Hw.
    induction (rev w) as [|x r IH]; [reflexivity|].
    simpl in *. apply andb_prop in Hw as [-> Hw]. auto. }
  rewrite Hd. destruct Ha as [->|(a' & c & -> & Hc)]; [reflexivity|].
  rewrite rev_app_distr. simpl. rewrite Hc. simpl.
  rewrite rev_involutive. reflexivity.
Qed.

Lemma replace_all_without m d s :
  (forall s r rest, m s = Some (r, rest) -> length rest < length s) ->
  (forall s r rest, m s = Some (r, rest) -> exists s', s = d :: s') ->
  ~ In d s -> replace_all m s = s.
Proof.
  intros Hs Ht. induction s as [|c s IH]; intros Hn; [reflexivity|].
  rewrite replace_all_cons by exact Hs.
  destruct (m (c :: s)) as [[r rest]|] eqn:E.
  - apply Ht in E as [s' E]. injection E as -> _. exfalso. apply Hn. now left.
  - rewrite IH; [reflexivity|]. intros Hin. apply Hn. now right.
Qed.

Lemma startsWith_spec p s : startsWith p s = true <-> exists b, s = p ++ b.
Proof.
  revert s. induction p as [|x p IH]; intros s; simpl.
  - split; [intros _; now exists s | reflexivity].
  - destruct s as [|y s].
    + split; [discriminate | intros [b E]; discriminate].
    + rewrite andb_true_iff, IH. split.
      * intros [E [b ->]]. destruct (ceq_spec x y); [subst; eauto | discriminate].
      * intros [b E]. injection E as -> ->.
        split; [destruct (ceq_spec x x); congruence | eauto].
Qed.

Lemma includes_spec h n : includes h n = true <-> exists a b, h = a ++ n ++ b.
Proof.
  induction h as [|c h IH]; simpl.
  - rewrite orb_false_r, startsWith_spec. split.
    + intros [b E]. now exists [], b.
    + intros (a & b & E). destruct a; [now exists b|discriminate].
  - rewrite orb_true_iff, startsWith_spec, IH. split.
    + intros [[b E]|(a & b & E)]; [now exists [], b|].
      exists (c :: a), b. simpl. now f_equal.
    + intros (a & b & E). destruct a as [|x a].
      * left. now exists b.
      * right. injection E as -> ->. eauto.
Qed.

Lemma trim_decomp s :
  exists w1 w2, s = w1 ++ trim s ++ w2.
Proof.
  unfold trim, trimStart.
  destruct (dropWhile_decomp is_ws s) as (w1 & E1 & _).
  destruct (trimEnd_decomp (dropWhile is_ws s)) as (w2 & E2 & _).
  exists w1, w2. now rewrite <- E2.
Qed.

(** What [trim] gives starts and ends with a character that is not
    whitespace, when it is not empty. *)
Lemma trim_ends s c r :
  trim s = c :: r ->
  is_ws c = false /\ exists a d, c :: r = a ++ [d] /\ is_ws d = false.
Proof.
  intros E. split.
  - unfold trim, trimStart in E.
    pose proof (dropWhile_head is_ws s) as Hh.
    destruct (dropWhile is_ws s) as [|x t]; [discriminate|].
    rewrite trimEnd_cons in E by exact Hh. now injection E as <- _.
  - unfold trim in E. destruct (trimEnd_last (trimStart s)) as [E'|(a & d & E' & Hd)].
    + congruence.
    + exists a, d. split; [congruence | exact Hd].
Qed.

Lemma trimEnd_app_stop l d b :
  is_ws d = false -> trimEnd (l ++ d :: b) = l ++ d :: trimEnd b.
Proof.
  intros Hd. unfold trimEnd. rewrite rev_app_distr. simpl.
  rewrite <- app_assoc. simpl. rewrite dropWhile_app_stop by exact Hd.
  rewrite rev_app_distr. simpl. rewrite rev_involutive, <- app_assoc. reflexivity.
Qed.

(** Looking a trimmed needle up in a trimmed haystack or in the haystack
    itself is the same. *)
Lemma includes_trim h c r :
  is_ws c = false ->
  (exists a d, c :: r = a ++ [d] /\ is_ws d = false) ->
  includes (trim h) (c :: r) = includes h (c :: r).
Proof.
  intros Hc (q0 & d & Eq & Hd).
  apply eq_true_iff_eq. rewrite !includes_spec. split.
  - intros (a & b & E). destruct (trim_decomp h) as (w1 & w2 & Eh).
    exists (w1 ++ a), (b ++ w2). rewrite Eh, E. now rewrite <- !app_assoc.
  - intros (a & b & E). subst h.
    exists (dropWhile is_ws a), (trimEnd b).
    unfold trim, trimStart.
    change (a ++ (c :: r) ++ b) with (a ++ c :: (r ++ b)).
    rewrite dropWhile_app_stop by exact Hc.
    change (dropWhile is_ws a ++ c :: r ++ b)
      with (dropWhile is_ws a ++ (c :: r) ++ b).
    rewrite Eq, <- app_assoc. simpl.
    rewrite app_assoc, trimEnd_app_stop by exact Hd.
    rewrite <- !app_assoc. reflexivity.
Qed.

End JSFacts.

(** ** Token sequences *)

Module HtmlFacts.
Import JS JSFacts Md Html.

Section Toks.
Variable tok : str -> Prop.

Lemma Toks_one t : tok t -> Toks tok t.
Proof.
  intros Ht. rewrite <- (app_nil_r t). apply Toks_cons; [exact Ht | constructor].
Qed.

Lemma Toks_app a b : Toks tok a -> Toks tok b -> Toks tok (a ++ b).
Proof.
  induction 1 as [|t s Ht Hs IH]; intros Hb; simpl; [exact Hb|].
  rewrite <- app_assoc. apply Toks_cons; auto.
Qed.

(** A character that no longer token contains cuts a token sequence
    into two token sequences. *)
Lemma Toks_split d a b :
  (forall t, tok t -> In d t -> t = [d]) ->
  Toks tok (a ++ d :: b) -> Toks tok a /\ Toks tok b.
Proof.
  intros Hd Hab. remember (a ++ d :: b) as x eqn:Ex.
  revert a Ex. induction Hab as [|t s Ht Hs IH]; intros a Ex.
  - destruct a; discriminate.
  - apply app_eq_app in Ex as [l [[E1 E2]|[E1 E2]]].
    + destruct l as [|d' l'].
      * simpl in E2. rewrite app_nil_r in E1. subst.
        destruct (IH [] eq_refl) as [_ Hb].
        split; [now apply Toks_one | exact Hb].
      * simpl in E2. injection E2 as <- ->.
        assert (t = [d]) as Et
            by (apply Hd; [exact Ht | rewrite E1; apply in_or_app; right; now left]).
        rewrite Et in E1. destruct a as [|y a].
        -- simpl in E1. injection E1 as <-. split; [constructor | exact Hs].
        -- exfalso. simpl in E1. injection E1 as _ E1. destruct a; discriminate.
    + subst. destruct (IH l eq_refl) as [Hl Hb].
      split; [now apply Toks_cons | exact Hb].
Qed.
End Toks.

Lemma Toks_mono (tok1 tok2 : str -> Prop) s :
  (forall t, tok1 t -> tok2 t) -> Toks tok1 s -> Toks tok2 s.
Proof. intros Hsub. induction 1; constructor; auto. Qed.

(** Where a character occurs that tokens hold only in front, a token
    starts. *)
Lemma Toks_at (tok : str -> Prop) d s a b :
  (forall t, tok t -> In d t -> exists t', t = d :: t' /\ ~ In d t') ->
  Toks tok s -> s = a ++ d :: b ->
  exists t rest, tok t /\ In d t /\ d :: b = t ++ rest.
Proof.
  intros Hd Hs. revert a. induction Hs as [|t s Ht Hs IH]; intros a E.
  - destruct a; discriminate.
  - apply app_eq_app in E as [l [[E1 E2]|[E1 E2]]].
    + destruct l as [|d' l'].
      * simpl in E2. apply (IH []). now rewrite E2.
      * simpl in E2. injection E2 as <- ->.
        assert (In d t) as Hin by (rewrite E1; apply in_or_app; right; now left).
        destruct (Hd t Ht Hin) as (t' & Et & Hn).
        destruct a as [|x a].
        -- simpl in E1. exists t, s. rewrite E1. repeat split; [now rewrite <- E1 | now left].
        -- exfalso. rewrite Et in E1. simpl in E1. injection E1 as <- E1.
           apply Hn. rewrite E1. apply in_or_app. right. now left.
    + apply (IH l). exact E2.
Qed.

(** The global replacement of an expression that starts with the
    character [d], on a token sequence that [d] cuts. *)
Section ReplaceToks.
Variable m : str -> option (str * str).
Variable d : char.
Variable tok : str -> Prop.
Variable Out : str -> Prop.
Hypothesis m_shrinks :
  forall s r rest, m s = Some (r, rest) -> length rest < length s.
Hypothesis m_trigger :
  forall s r rest, m s = Some (r, rest) -> exists s', s = d :: s'.
Hypothesis tok_delim : forall t, tok t -> In d t -> t = [d].
Hypothesis m_sound :
  forall s r rest, Toks tok s -> m s = Some (r, rest) -> Out r /\ Toks tok rest.
Hypothesis Out_nil : Out [].
Hypothesis Out_tok : forall t, tok t -> Out t.
Hypothesis Out_app : forall a b, Out a -> Out b -> Out (a ++ b).

Lemma replace_all_skip t s :
  ~ In d t -> replace_all m (t ++ s) = t ++ replace_all m s.
Proof using m_shrinks m_trigger.
  induction t as [|c t IH]; intros Hn; [reflexivity|].
  simpl. rewrite replace_all_cons by exact m_shrinks.
  destruct (m (c :: t ++ s)) as [[r rest]|] eqn:E.
  - apply m_trigger in E as [s' E]. injection E as -> _.
    exfalso. apply Hn. now left.
  - rewrite IH; [reflexivity|]. intros Hin. apply Hn. now right.
Qed.

Theorem replace_all_toks s : Toks tok s -> Out (replace_all m s).
Proof using All.
  remember (length s) as n eqn:Hn.
  assert (length s <= n) as Hle by lia. clear Hn.
  revert s Hle. induction n as [n IHn] using lt_wf_ind.
  intros s Hle Hs. induction Hs as [|t s Ht Hs IH]; [exact Out_nil|].
  rewrite length_app in Hle.
  destruct (in_dec N.eq_dec d t) as [Hin|Hnin].
  - apply tok_delim in Hin as ->; [|exact Ht]. simpl.
    rewrite replace_all_cons by exact m_shrinks.
    destruct (m (d :: s)) as [[r rest]|] eqn:E.
    + destruct (m_sound (d :: s) r rest) as [Hr Hrest]; [|exact E|].
      { change (d :: s) with ([d] ++ s). now apply Toks_cons. }
      apply m_shrinks in E as L. simpl in L, Hle.
      apply Out_app; [exact Hr|].
      apply (IHn (length rest)); [lia | lia | exact Hrest].
    + change (d :: replace_all m s) with ([d] ++ replace_all m s).
      apply Out_app; [now apply Out_tok|]. apply IH. simpl in Hle. lia.
  - rewrite replace_all_skip by exact Hnin.
    apply Out_app; [now apply Out_tok|]. apply IH. lia.
Qed.
End ReplaceToks.

End HtmlFacts.

(** ** The markdown converter *)

Module MdFacts.
Import JS JSFacts Md Html HtmlFacts MdShape.

Lemma replace_char_app c r a b :
  replace_char c r (a ++ b) = replace_char c r a ++ replace_char c r b.
Proof. unfold replace_char. apply flat_map_app. Qed.

Lemma esc_app a b : esc (a ++ b) = esc a ++ esc b.
Proof. unfold esc. now rewrite !replace_char_app. Qed.

Lemma esc_one c : esc [c] = esc_char c.
Proof.
  unfold esc_char.
  destruct (ceq_spec c amp) as [->|N1]; [reflexivity|].
  destruct (ceq_spec c lt) as [->|N2]; [reflexivity|].
  destruct (ceq_spec c gt) as [->|N3]; [reflexivity|].
  destruct (ceq_spec c quot) as [->|N4]; [reflexivity|].
  unfold esc, replace_char. simpl.
  destruct (ceq_spec c amp); [contradiction|]. simpl.
  destruct (ceq_spec c lt); [contradiction|]. simpl.
  destruct (ceq_spec c gt); [contradiction|]. simpl.
  destruct (ceq_spec c quot); [contradiction|]. reflexivity.
Qed.

(** [esc] rewrites its argument character by character. *)
Lemma esc_flat_map s : esc s = flat_map esc_char s.
Proof.
  induction s as [|c s IH]; [reflexivity|].
  change (c :: s) with ([c] ++ s). rewrite esc_app, esc_one, IH. reflexivity.
Qed.

Lemma esc_char_text c : Text (esc_char c).
Proof.
  unfold esc_char.
  destruct (ceq c amp) eqn:E1;
    [apply Toks_one; right; simpl; auto|].
  destruct (ceq c lt) eqn:E2;
    [apply Toks_one; right; simpl; auto|].
  destruct (ceq c gt) eqn:E3;
    [apply Toks_one; right; simpl; auto|].
  destruct (ceq c quot) eqn:E4;
    [apply Toks_one; right; simpl; auto 6|].
  apply Toks_one. left. exists c. split; [reflexivity|].
  unfold special. now rewrite E1, E2, E3, E4.
Qed.

Lemma esc_text s : Text (esc s).
Proof.
  rewrite esc_flat_map. induction s as [|c s IH]; simpl; [constructor|].
  apply Toks_app; [apply esc_char_text | exact IH].
Qed.

Lemma text_tok_delim d t : cutting d -> text_tok t -> In d t -> t = [d].
Proof.
  intros Hd [(c & -> & _)|He] Hin.
  - destruct Hin as [->|[]]. reflexivity.
  - exfalso. unfold cutting in Hd. simpl in Hd, He.
    repeat (destruct He as [<-|He]; [
      simpl in Hin;
      repeat (destruct Hd as [<-|Hd]; [intuition discriminate|]); exact Hd |]).
    exact He.
Qed.

Lemma coded_tok_delim d t : cutting d -> coded_tok t -> In d t -> t = [d].
Proof.
  intros Hd [Ht|Hc] Hin; [now apply text_tok_delim|].
  exfalso. unfold cutting in Hd. simpl in Hd, Hc.
  repeat (destruct Hc as [<-|Hc]; [
    simpl in Hin;
    repeat (destruct Hd as [<-|Hd]; [intuition discriminate|]); exact Hd |]).
  exact Hc.
Qed.

Lemma text_has_no_special s c : Text s -> In c s -> c <> lt /\ c <> gt /\ c <> quot.
Proof.
  induction 1 as [|t s Ht Hs IH]; [intros []|]. intros Hin.
  apply in_app_or in Hin as [Hin|Hin]; [|auto].
  destruct Ht as [(x & -> & Hx)|He].
  - destruct Hin as [->|[]]. unfold special in Hx.
    repeat split; intros ->; discriminate.
  - simpl in He.
    repeat (destruct He as [<-|He];
            [simpl in Hin; repeat (destruct Hin as [<-|Hin];
                                   [repeat split; discriminate|]); destruct Hin|]).
    destruct He.
Qed.

(** *** The code expression *)

Lemma code_match_inv s r rest :
  code_match s = Some (r, rest) ->
  exists body,
    body <> [] /\ forallb (fun x => negb (ceq x backtick)) body = true /\
    s = backtick :: body ++ backtick :: rest /\
    r = ustr "<code>" ++ body ++ ustr "</code>".
Proof.
  unfold code_match. destruct s as [|c s]; [discriminate|].
  destruct (ceq_spec c backtick) as [->|]; [|discriminate].
  destruct (span _ s) as [body tl] eqn:E.
  apply span_spec in E as (-> & Hb & Htl).
  destruct body as [|x body]; [discriminate|].
  destruct tl as [|e tl]; [discriminate|].
  intros [= <- <-]. exists (x :: body). repeat split; [discriminate | exact Hb |].
  apply negb_false_iff in Htl. destruct (ceq_spec e backtick) as [->|]; [|discriminate].
  reflexivity.
Qed.

Lemma code_match_shrinks s r rest :
  code_match s = Some (r, rest) -> length rest < length s.
Proof.
  intros E. apply code_match_inv in E as (body & _ & _ & -> & _).
  simpl. rewrite length_app. simpl. lia.
Qed.

Lemma code_match_trigger s r rest :
  code_match s = Some (r, rest) -> exists s', s = backtick :: s'.
Proof. intros E. apply code_match_inv in E as (body & _ & _ & -> & _). eauto. Qed.

Lemma cutting_backtick : cutting backtick.
Proof. unfold cutting. simpl. auto. Qed.
Lemma cutting_lbracket : cutting lbracket.
Proof. unfold cutting. simpl. auto. Qed.
Lemma cutting_rparen : cutting rparen.
Proof. unfold cutting. simpl. auto 6. Qed.

Lemma text_coded s : Text s -> Toks coded_tok s.
Proof. apply Toks_mono. intros t Ht. now left. Qed.

Lemma code_tag_coded t : In t code_tags -> Toks coded_tok t.
Proof. intros Ht. apply Toks_one. now right. Qed.

Lemma replace_code_coded s :
  Text s -> Toks coded_tok (replace_all code_match s).
Proof.
  apply (replace_all_toks code_match backtick text_tok (Toks coded_tok)).
  - exact code_match_shrinks.
  - exact code_match_trigger.
  - intros t. apply text_tok_delim, cutting_backtick.
  - intros s0 r rest Hs E.
    apply code_match_inv in E as (body & _ & _ & -> & ->).
    change (backtick :: body ++ backtick :: rest)
      with ([] ++ backtick :: (body ++ backtick :: rest)) in Hs.
    apply Toks_split in Hs as [_ Hs];
      [|intros t; apply text_tok_delim, cutting_backtick].
    apply Toks_split in Hs as [Hbody Hrest];
      [|intros t; apply text_tok_delim, cutting_backtick].
    split; [|exact Hrest].
    apply Toks_app; [apply code_tag_coded; simpl; auto|].
    apply Toks_app; [now apply text_coded|].
    apply code_tag_coded; simpl; auto.
  - constructor.
  - intros t Ht. apply Toks_one. now left.
  - intros a b. apply Toks_app.
Qed.

(** *** The link expression *)

Lemma link_match_inv s r rest :
  link_match s = Some (r, rest) ->
  exists text url,
    text <> [] /\ url <> [] /\
    s = lbracket :: text ++ rbracket :: lparen :: url ++ rparen :: rest /\
    r = link_replacer text url.
Proof.
  unfold link_match. destruct s as [|c s]; [discriminate|].
  destruct (ceq_spec c lbracket) as [->|]; [|discriminate].
  destruct (span _ s) as [text tl] eqn:E.
  apply span_spec in E as (-> & _ & Htl).
  destruct text as [|x text]; [discriminate|].
  destruct tl as [|e [|e' tl]]; [discriminate | discriminate |].
  apply negb_false_iff in Htl. destruct (ceq_spec e rbracket) as [->|]; [|discriminate].
  destruct (ceq_spec e' lparen) as [->|]; [|discriminate].
  destruct (span _ tl) as [u tl'] eqn:E.
  apply span_spec in E as (-> & _ & Htl').
  destruct u as [|y u]; [discriminate|].
  destruct tl' as [|e tl']; [discriminate|].
  apply negb_false_iff in Htl'. destruct (ceq_spec e rparen) as [->|]; [|discriminate].
  intros [= <- <-]. exists (x :: text), (y :: u).
  repeat split; discriminate.
Qed.

Lemma link_match_shrinks s r rest :
  link_match s = Some (r, rest) -> length rest < length s.
Proof.
  intros E. apply link_match_inv in E as (text & u & _ & _ & -> & _).
  simpl. rewrite length_app. simpl. rewrite length_app. simpl. lia.
Qed.

Lemma link_match_trigger s r rest :
  link_match s = Some (r, rest) -> exists s', s = lbracket :: s'.
Proof. intros E. apply link_match_inv in E as (text & u & _ & _ & -> & _). eauto. Qed.

Lemma text_sanitized tags s : Text s -> Sanitized tags s.
Proof. apply Toks_mono. intros t Ht. now left. Qed.

Lemma tag_sanitized tags t : In t tags -> Sanitized tags t.
Proof. intros Ht. apply Toks_one. right. now left. Qed.

Lemma anchor_sanitized tags u : Text u -> Sanitized tags (anchor_open u).
Proof. intros Hu. apply Toks_one. right. right. eauto. Qed.

Lemma sanitized_mono tags1 tags2 s :
  incl tags1 tags2 -> Sanitized tags1 s -> Sanitized tags2 s.
Proof.
  intros Hi. apply Toks_mono. intros t [Ht|[Ht|Ht]]; [now left | | now right; right].
  right. left. now apply Hi.
Qed.

(** Whatever was captured, the replacer gives escaped text, or escaped
    text inside an anchor whose address is escaped. *)
Lemma link_replacer_sanitized text u :
  Sanitized inline_tags (link_replacer text u).
Proof.
  unfold link_replacer. destruct (negb _).
  - apply text_sanitized, esc_text.
  - apply Toks_app; [apply anchor_sanitized, esc_text|].
    apply Toks_app; [apply text_sanitized, esc_text|].
    apply tag_sanitized. simpl. auto.
Qed.

Lemma coded_sanitized s : Toks coded_tok s -> Sanitized inline_tags s.
Proof.
  apply Toks_mono. intros t [Ht|Ht]; [now left|].
  right. left. apply in_or_app. now left.
Qed.

Lemma replace_links_sanitized s :
  Toks coded_tok s -> Sanitized inline_tags (replace_all link_match s).
Proof.
  apply (replace_all_toks link_match lbracket coded_tok (Sanitized inline_tags)).
  - exact link_match_shrinks.
  - exact link_match_trigger.
  - intros t. apply coded_tok_delim, cutting_lbracket.
  - intros s0 r rest Hs E.
    apply link_match_inv in E as (text & u & _ & _ & -> & ->).
    split; [apply link_replacer_sanitized|].
    assert (lbracket :: text ++ rbracket :: lparen :: u ++ rparen :: rest
            = (lbracket :: text ++ rbracket :: lparen :: u) ++ rparen :: rest) as E.
    { simpl. f_equal. rewrite <- app_assoc. reflexivity. }
    rewrite E in Hs.
    apply Toks_split in Hs as [_ Hs];
      [exact Hs | intros t; apply coded_tok_delim, cutting_rparen].
  - constructor.
  - intros t Ht. apply coded_sanitized. now apply Toks_one.
  - intros a b. apply Toks_app.
Qed.

Lemma inline_sanitized s : Sanitized inline_tags (inline s).
Proof. apply replace_links_sanitized, replace_code_coded, esc_text. Qed.

(** *** Blocks *)

Lemma wrap_sanitized (tag : string) body :
  In (ustr ("<" ++ tag ++ ">")) block_tags ->
  In (ustr ("</" ++ tag ++ ">")) block_tags ->
  Sanitized inline_tags body ->
  Sanitized all_tags (wrap tag body).
Proof.
  intros Ho Hc Hb. unfold wrap.
  assert (forall a b, ustr (a ++ b) = ustr a ++ ustr b) as Hu.
  { intros a b. unfold ustr. rewrite <- map_app. f_equal.
    induction a; simpl; [reflexivity | now f_equal]. }
  rewrite !Hu in Ho, Hc.
  rewrite (app_assoc (ustr "<")), (app_assoc (ustr "<" ++ ustr tag)).
  apply Toks_app.
  { apply tag_sanitized. apply in_or_app. right. rewrite <- app_assoc. exact Ho. }
  apply Toks_app.
  { revert Hb. apply sanitized_mono. intros t Ht. apply in_or_app. now left. }
  rewrite (app_assoc (ustr "</")).
  apply tag_sanitized. apply in_or_app. right. rewrite <- app_assoc. exact Hc.
Qed.

Lemma push_sane x st : Sanitized all_tags x -> sane st -> sane (push x st).
Proof.
  unfold sane, push. simpl. intros Hx Hs.
  apply Forall_app. split; [exact Hs | now constructor].
Qed.

Lemma ul_tag_sanitized : Sanitized all_tags (ustr "<ul>").
Proof. apply tag_sanitized. apply in_or_app. right. simpl. auto 20. Qed.

Lemma ul_close_sanitized : Sanitized all_tags (ustr "</ul>").
Proof. apply tag_sanitized. apply in_or_app. right. simpl. auto 20. Qed.

Lemma closeList_sane st : sane st -> sane (closeList st).
Proof.
  unfold sane, closeList. intros Hs. destruct (inList st); [|exact Hs].
  simpl. apply Forall_app. split; [exact Hs|].
  constructor; [apply ul_close_sanitized | constructor].
Qed.

Lemma step_sane st raw : sane st -> sane (step st raw).
Proof.
  intros Hs. unfold step.
  destruct (trim (trimEnd raw)) as [|c t] eqn:Et; [now apply closeList_sane|].
  destruct (startsWith _ _).
  { apply push_sane; [|now apply closeList_sane].
    apply wrap_sanitized; [simpl; auto 20 .. | apply inline_sanitized]. }
  destruct (match_heading (ustr "###") _).
  { apply push_sane; [|now apply closeList_sane].
    apply wrap_sanitized; [simpl; auto 20 .. | apply inline_sanitized]. }
  destruct (match_heading (ustr "##") _).
  { apply push_sane; [|now apply closeList_sane].
    apply wrap_sanitized; [simpl; auto 20 .. | apply inline_sanitized]. }
  destruct (match_heading (ustr "#") _).
  { apply push_sane; [|now apply closeList_sane].
    apply wrap_sanitized; [simpl; auto 20 .. | apply inline_sanitized]. }
  destruct (match_li _).
  { apply push_sane.
    - apply wrap_sanitized; [simpl; auto 20 .. | apply inline_sanitized].
    - destruct (inList st); [exact Hs|].
      unfold sane. simpl. apply Forall_app. split; [exact Hs|].
      constructor; [apply ul_tag_sanitized | constructor]. }
  apply push_sane; [|now apply closeList_sane].
  apply wrap_sanitized; [simpl; auto 20 .. | apply inline_sanitized].
Qed.

Lemma run_sane lines : sane (run lines).
Proof.
  unfold run. apply closeList_sane.
  assert (sane {| out := []; inList := false |}) as H0 by constructor.
  revert H0. generalize {| out := []; inList := false |}.
  induction lines as [|l ls IH]; intros st Hs; simpl; [exact Hs|].
  apply IH, step_sane, Hs.
Qed.

Lemma newline_text : Text [newline].
Proof. apply Toks_one. left. exists newline. split; reflexivity. Qed.

Lemma join_sanitized l :
  Forall (Sanitized all_tags) l -> Sanitized all_tags (join [newline] l).
Proof.
  induction 1 as [|x l Hx Hl IH]; simpl; [constructor|].
  destruct l as [|y l]; [exact Hx|].
  apply Toks_app; [exact Hx|].
  apply (Toks_app _ [newline]); [apply text_sanitized, newline_text | exact IH].
Qed.

Lemma markup_tok_lt t :
  markup_tok all_tags t -> In lt t -> exists t', t = lt :: t' /\ ~ In lt t'.
Proof.
  intros [[(c & -> & Hc)|He]|[Ht|(u & Hu & ->)]] Hin.
  - destruct Hin as [->|[]]. discriminate Hc.
  - exfalso. simpl in He.
    repeat (destruct He as [<-|He];
            [simpl in Hin; repeat (destruct Hin as [Hin|Hin]; [discriminate Hin|]);
             exact Hin|]).
    exact He.
  - simpl in Ht.
    repeat (destruct Ht as [<-|Ht];
            [eexists; split; [reflexivity|];
             simpl; intros Hn;
             repeat (destruct Hn as [Hn|Hn]; [discriminate Hn|]); exact Hn|]).
    destruct Ht.
  - unfold anchor_open.
    exists (ustr "a href=" ++ [quot] ++ u ++ [quot]
            ++ ustr " target=" ++ [quot] ++ ustr "_blank" ++ [quot]
            ++ ustr " rel=" ++ [quot] ++ ustr "noreferrer" ++ [quot] ++ ustr ">").
    split; [reflexivity|]. intros Hn.
    apply in_app_or in Hn as [Hn|Hn];
      [simpl in Hn; repeat (destruct Hn as [Hn|Hn]; [discriminate Hn|]); exact Hn|].
    apply in_app_or in Hn as [Hn|Hn];
      [simpl in Hn; repeat (destruct Hn as [Hn|Hn]; [discriminate Hn|]); exact Hn|].
    apply in_app_or in Hn as [Hn|Hn].
    + apply (text_has_no_special u lt Hu) in Hn. now destruct Hn.
    + simpl in Hn. repeat (destruct Hn as [Hn|Hn]; [discriminate Hn|]). exact Hn.
Qed.

(** In sanitized markup every [<] opens one of the tags, or an anchor. *)
Lemma sanitized_lt_opens_tag s a b :
  Sanitized all_tags s -> s = a ++ lt :: b ->
  exists t rest,
    (In t all_tags \/ exists u, Text u /\ t = anchor_open u) /\ lt :: b = t ++ rest.
Proof.
  intros Hs E.
  destruct (Toks_at (markup_tok all_tags) lt s a b markup_tok_lt Hs E)
    as (t & rest & Ht & Hin & Eq).
  exists t, rest. split; [|exact Eq].
  destruct Ht as [[(c & -> & Hc)|He]|[Ht|Ha]]; [| |now left|now right].
  - destruct Hin as [->|[]]. discriminate Hc.
  - exfalso. simpl in He.
    repeat (destruct He as [<-|He];
            [simpl in Hin; repeat (destruct Hin as [Hin|Hin]; [discriminate Hin|]);
             exact Hin|]).
    exact He.
Qed.

(** C1.  Whatever the input, the markup [mdToHtml] gives is a sequence of
    ordinary characters, of the four entities [&amp;], [&lt;], [&gt;],
    [&quot;], and of the converter's own tags ([p], [h1] to [h3], [ul],
    [li], [blockquote], [code], [a] with an escaped address): no
    ampersand, angle bracket or double quote of the input is copied as it
    is, because [esc] turns each of them into its entity before anything
    else is done.  In particular every [<] of the output opens one of these
    tags. *)
Theorem mdToHtml_no_raw_html :
  (forall s, esc s = flat_map esc_char s) /\
  (forall s, Text (esc s)) /\
  (forall md, Sanitized all_tags (mdToHtml md)) /\
  (forall md a b,
      mdToHtml md = a ++ lt :: b ->
      exists t rest,
        (In t all_tags \/ exists u, Text u /\ t = anchor_open u) /\
        lt :: b = t ++ rest).
Proof.
  assert (forall md, Sanitized all_tags (mdToHtml md)) as Hs
      by (intros md; unfold mdToHtml; apply join_sanitized, run_sane).
  split; [exact esc_flat_map|]. split; [exact esc_text|]. split; [exact Hs|].
  intros md a b E. apply (sanitized_lt_opens_tag _ a b (Hs md) E).
Qed.

Lemma mdToHtml_no_raw_html_witness :
  mdToHtml (ustr "a<b") = ustr "<p>a&lt;b</p>" /\
  exists t rest,
    (In t all_tags \/ exists u, Text u /\ t = anchor_open u) /\
    lt :: ustr "/p>" = t ++ rest.
Proof.
  split; [vm_compute; reflexivity|].
  apply (proj2 (proj2 (proj2 mdToHtml_no_raw_html))
           (ustr "a<b") (ustr "<p>a&lt;b")).
  vm_compute. reflexivity.
Defined.

(** *** Lists are flat *)

Lemma neutral_app x y : neutral x -> neutral y -> neutral (x ++ y).
Proof. intros Hx Hy b rest. rewrite <- app_assoc, Hx, Hy. reflexivity. Qed.

Lemma neutral_plain c : ceq c lt = false -> neutral [c].
Proof.
  intros Hc b rest.
  assert (ceq lt c = false) as Hc'
      by (unfold ceq in *; rewrite N.eqb_sym; exact Hc).
  change (ul_flat b ([c] ++ rest))
    with (if ceq lt c && startsWith (ustr "ul>") rest
          then negb b && ul_flat true rest
          else if ceq lt c && startsWith (ustr "/ul>") rest
               then ul_flat false rest else ul_flat b rest).
  rewrite Hc'. reflexivity.
Qed.

Lemma neutral_text_tok t : text_tok t -> neutral t.
Proof.
  intros [(c & -> & Hc)|He].
  - apply neutral_plain. unfold special in Hc.
    destruct (ceq c amp), (ceq c lt); simpl in Hc; congruence.
  - simpl in He.
    repeat (destruct He as [<-|He]; [intros b rest; reflexivity|]).
    destruct He.
Qed.

Lemma neutral_toks (tok : str -> Prop) s :
  (forall t, tok t -> neutral t) -> Toks tok s -> neutral s.
Proof.
  intros Ht. induction 1 as [|t s H1 H2 IH]; [intros b rest; reflexivity|].
  apply neutral_app; auto.
Qed.

Lemma neutral_text s : Text s -> neutral s.
Proof. apply neutral_toks, neutral_text_tok. Qed.

Lemma neutral_anchor u : Text u -> neutral (anchor_open u).
Proof.
  intros Hu b rest. unfold anchor_open.
  rewrite <- !app_assoc.
  change (ul_flat b (ustr "<a href=" ++ [quot] ++ u ++ [quot] ++ ustr " target="
                     ++ [quot] ++ ustr "_blank" ++ [quot] ++ ustr " rel=" ++ [quot]
                     ++ ustr "noreferrer" ++ [quot] ++ ustr ">" ++ rest))
    with (ul_flat b (u ++ [quot] ++ ustr " target="
                     ++ [quot] ++ ustr "_blank" ++ [quot] ++ ustr " rel=" ++ [quot]
                     ++ ustr "noreferrer" ++ [quot] ++ ustr ">" ++ rest)).
  rewrite (neutral_text u Hu). reflexivity.
Qed.

Lemma neutral_inline_tok t : markup_tok inline_tags t -> neutral t.
Proof.
  intros [Ht|[Ht|(u & Hu & ->)]].
  - now apply neutral_text_tok.
  - simpl in Ht.
    repeat (destruct Ht as [<-|Ht]; [intros b rest; reflexivity|]).
    destruct Ht.
  - now apply neutral_anchor.
Qed.

Lemma neutral_inline s : neutral (inline s).
Proof. apply (neutral_toks _ _ neutral_inline_tok), inline_sanitized. Qed.

Lemma neutral_wrap tag body :
  In tag plain_blocks -> neutral body -> neutral (wrap tag body).
Proof.
  intros Ht Hb. unfold wrap.
  assert (neutral (ustr "<" ++ ustr tag ++ ustr ">")
          /\ neutral (ustr "</" ++ ustr tag ++ ustr ">")) as [Ho Hc].
  { simpl in Ht.
    repeat (destruct Ht as [<-|Ht];
            [split; intros b rest; reflexivity|]).
    destruct Ht. }
  intros b rest.
  replace ((ustr "<" ++ ustr tag ++ ustr ">" ++ body ++ ustr "</" ++ ustr tag ++ ustr ">") ++ rest)
    with ((ustr "<" ++ ustr tag ++ ustr ">") ++ body ++ (ustr "</" ++ ustr tag ++ ustr ">") ++ rest)
    by (rewrite <- !app_assoc; reflexivity).
  rewrite Ho, Hb, Hc. reflexivity.
Qed.

Lemma join_snoc sep (l : list str) x :
  l <> [] -> join sep (l ++ [x]) = join sep l ++ sep ++ x.
Proof.
  induction l as [|y l IH]; [congruence|]. intros _.
  destruct l as [|z l]; [reflexivity|].
  change (join sep ((y :: z :: l) ++ [x])) with (y ++ sep ++ join sep ((z :: l) ++ [x])).
  rewrite IH by discriminate.
  change (join sep (y :: z :: l)) with (y ++ sep ++ join sep (z :: l)).
  rewrite <- !app_assoc. reflexivity.
Qed.

Lemma Built_flat l b :
  Built l b ->
  forall rest, ul_flat false (join [newline] l ++ rest) = ul_flat b rest.
Proof.
  assert (neutral [newline]) as Hnl by (apply neutral_plain; reflexivity).
  assert (forall l b, Built l b -> l = [] -> b = false) as Hnil.
  { intros l0 b0 Hb E.
    destruct Hb as [|l1 _|l1 b1 _|l1 b1 x1 _ _]; try reflexivity;
      destruct l1; discriminate. }
  induction 1 as [|l Hl IH|l b Hl IH|l b x Hx Hl IH]; intros rest.
  - reflexivity.
  - destruct l as [|y l]; [reflexivity|].
    rewrite join_snoc by discriminate. rewrite <- !app_assoc, IH, Hnl. reflexivity.
  - destruct l as [|y l]; [reflexivity|].
    rewrite join_snoc by discriminate. rewrite <- !app_assoc, IH, Hnl. reflexivity.
  - destruct l as [|y l].
    + rewrite (Hnil [] b Hl eq_refl). simpl. apply Hx.
    + rewrite join_snoc by discriminate. rewrite <- !app_assoc, IH, Hnl. apply Hx.
Qed.

Lemma closeList_built st : built st -> built (closeList st).
Proof.
  unfold built, closeList. intros Hb.
  destruct (inList st) eqn:E; [|now rewrite E].
  simpl. now apply Built_close with (b := true).
Qed.

Lemma closeList_closed st : inList (closeList st) = false.
Proof. unfold closeList. destruct (inList st) eqn:E; [reflexivity | exact E]. Qed.

Lemma push_built x st : neutral x -> built st -> built (push x st).
Proof. unfold built, push. simpl. intros Hx Hb. now apply Built_block. Qed.

Lemma step_built st raw : built st -> built (step st raw).
Proof.
  intros Hs. unfold step.
  destruct (trim (trimEnd raw)) as [|c t] eqn:Et; [now apply closeList_built|].
  destruct (startsWith _ _).
  { apply push_built; [|now apply closeList_built].
    apply neutral_wrap; [simpl; auto 10 | apply neutral_inline]. }
  destruct (match_heading (ustr "###") _).
  { apply push_built; [|now apply closeList_built].
    apply neutral_wrap; [simpl; auto 10 | apply neutral_inline]. }
  destruct (match_heading (ustr "##") _).
  { apply push_built; [|now apply closeList_built].
    apply neutral_wrap; [simpl; auto 10 | apply neutral_inline]. }
  destruct (match_heading (ustr "#") _).
  { apply push_built; [|now apply closeList_built].
    apply neutral_wrap; [simpl; auto 10 | apply neutral_inline]. }
  destruct (match_li _).
  { apply push_built; [apply neutral_wrap; [simpl; auto 10 | apply neutral_inline]|].
    unfold built in *. destruct (inList st) eqn:E; [now rewrite E|].
    simpl. now apply Built_open. }
  apply push_built; [|now apply closeList_built].
  apply neutral_wrap; [simpl; auto 10 | apply neutral_inline].
Qed.

Lemma run_built lines : Built (out (run lines)) false.
Proof.
  unfold run.
  assert (built {| out := []; inList := false |}) as H0 by constructor.
  revert H0. generalize {| out := []; inList := false |}.
  induction lines as [|l ls IH]; intros st Hs; simpl.
  - apply closeList_built in Hs. unfold built in Hs.
    now rewrite closeList_closed in Hs.
  - apply IH, step_built, Hs.
Qed.

Lemma mdToHtml_flat md : ul_flat false (mdToHtml md) = true.
Proof.
  unfold mdToHtml.
  rewrite <- (app_nil_r (join _ _)).
  rewrite (Built_flat _ _ (run_built _)). reflexivity.
Qed.

(** *** Runs of list items *)

Lemma step_item st raw :
  is_item raw = true ->
  step st raw = push (li_html raw) (open_list st).
Proof.
  unfold is_item, li_html, step, open_list.
  destruct (match_li (trimEnd raw)) as [t|] eqn:E; [intros _|discriminate].
  unfold match_li in E. destruct (trimEnd raw) as [|c rest]; [discriminate|].
  destruct (ceq c (ch "-") || ceq c (ch "*")) eqn:Ec; [|discriminate].
  assert (is_ws c = false /\ ceq (ch ">") c = false /\ ceq (ch "#") c = false)
    as (Hws & Hgt & Hh).
  { apply orb_prop in Ec as [Ec|Ec];
      [destruct (ceq_spec c (ch "-")) as [->|]
      |destruct (ceq_spec c (ch "*")) as [->|]];
      try discriminate; repeat split. }
  rewrite trim_cons by exact Hws.
  unfold match_heading.
  change (startsWith (ustr ">") (c :: trimEnd rest)) with (ceq (ch ">") c && true).
  change (startsWith (ustr "###") (c :: rest))
    with (ceq (ch "#") c && startsWith (ustr "##") rest).
  change (startsWith (ustr "##") (c :: rest))
    with (ceq (ch "#") c && startsWith (ustr "#") rest).
  change (startsWith (ustr "#") (c :: rest)) with (ceq (ch "#") c && true).
  rewrite Hgt, Hh. reflexivity.
Qed.

Lemma closeList_idem st : closeList (closeList st) = closeList st.
Proof. unfold closeList at 1. now rewrite closeList_closed. Qed.

Lemma step_other st raw :
  is_item raw = false ->
  inList (step st raw) = false /\ step st raw = step (closeList st) raw.
Proof.
  unfold is_item, step. intros Hn.
  destruct (match_li (trimEnd raw)); [discriminate|].
  rewrite !closeList_idem.
  repeat match goal with
         | |- context [match ?x with _ => _ end] => destruct x
         end;
    split; try reflexivity; simpl; apply closeList_closed.
Qed.

Lemma closeList_shift x st : closeList (shift x st) = shift x (closeList st).
Proof.
  unfold closeList, shift. simpl.
  destruct (inList st) eqn:E; simpl; rewrite ?E, ?app_assoc; reflexivity.
Qed.

Lemma push_shift x y st : push y (shift x st) = shift x (push y st).
Proof. unfold push, shift. simpl. now rewrite app_assoc. Qed.

Lemma open_list_shift x st : open_list (shift x st) = shift x (open_list st).
Proof.
  unfold open_list, shift. simpl.
  destruct (inList st) eqn:E; simpl; rewrite ?E, ?app_assoc; reflexivity.
Qed.

Lemma step_shift x st raw : step (shift x st) raw = shift x (step st raw).
Proof.
  unfold step. fold (open_list (shift x st)). fold (open_list st).
  rewrite closeList_shift, open_list_shift.
  repeat match goal with
         | |- context [match ?x with _ => _ end] => destruct x
         end; rewrite ?push_shift; reflexivity.
Qed.

Lemma fold_step_shift x lines st :
  fold_left step lines (shift x st) = shift x (fold_left step lines st).
Proof.
  revert st. induction lines as [|l ls IH]; intros st; simpl; [reflexivity|].
  now rewrite step_shift, IH.
Qed.

Lemma fold_items items st :
  forallb is_item items = true ->
  items <> [] ->
  fold_left step items st =
  {| out := out (open_list st) ++ List.map li_html items; inList := true |}.
Proof.
  intros Hall Hne. revert st.
  induction items as [|x items IH]; [congruence|]. intros st.
  simpl in Hall. apply andb_prop in Hall as [Hx Hall].
  simpl. rewrite step_item by exact Hx.
  destruct items as [|y items].
  - simpl. unfold push, open_list. destruct (inList st) eqn:E; simpl; now rewrite ?E.
  - rewrite IH by (auto; discriminate).
    assert (open_list (push (li_html x) (open_list st)) = push (li_html x) (open_list st)) as ->.
    { unfold open_list, push. destruct (inList st) eqn:E; simpl; now rewrite ?E. }
    unfold push. simpl. now rewrite <- app_assoc.
Qed.

Lemma fold_closed before :
  ends_closed before = true ->
  inList (fold_left step before {| out := []; inList := false |}) = false.
Proof.
  unfold ends_closed. intros Hb.
  destruct (rev before) as [|x r] eqn:E.
  - apply (f_equal (@rev str)) in E. rewrite rev_involutive in E. now subst.
  - apply (f_equal (@rev str)) in E. rewrite rev_involutive in E. subst.
    simpl. rewrite fold_left_app. simpl.
    apply step_other. now apply negb_true_iff.
Qed.

Lemma item_run before items after :
  items <> [] ->
  forallb is_item items = true ->
  ends_closed before = true ->
  starts_other after = true ->
  out (run (before ++ items ++ after)) =
  out (run before) ++ [ustr "<ul>"] ++ List.map li_html items
  ++ [ustr "</ul>"] ++ out (run after).
Proof.
  intros Hne Hall Hb Ha. unfold run.
  rewrite !fold_left_app.
  set (init := {| out := []; inList := false |}).
  pose proof (fold_closed before Hb) as Hc. fold init in Hc.
  set (s1 := fold_left step before init) in *.
  rewrite (fold_items items s1 Hall Hne).
  unfold open_list. rewrite Hc. simpl.
  assert (closeList s1 = s1) as -> by (unfold closeList; now rewrite Hc).
  set (s2 := {| out := _; inList := true |}).
  assert (closeList s2
          = shift ((out s1 ++ [ustr "<ul>"]) ++ List.map li_html items ++ [ustr "</ul>"]) init)
    as Hs2.
  { unfold closeList, s2, shift. simpl. rewrite app_nil_r.
    rewrite <- !app_assoc. reflexivity. }
  assert (closeList (fold_left step after s2)
          = closeList (fold_left step after (closeList s2))) as ->.
  { destruct after as [|x after]; simpl.
    - now rewrite closeList_idem.
    - simpl in Ha. apply negb_true_iff in Ha.
      destruct (step_other s2 x Ha) as [_ ->]. reflexivity. }
  rewrite Hs2, fold_step_shift, closeList_shift. unfold shift. simpl.
  rewrite <- !app_assoc. reflexivity.
Qed.

(** A marker, a space and an item text: the line is an item when the text
    is not blank and holds no line terminator, and the item's content is
    the text without the whitespace around it. *)
Lemma marker_line_is_item c body :
  c = ch "-" \/ c = ch "*" ->
  trimEnd body <> [] ->
  forallb (fun x => negb (is_line_terminator x)) body = true ->
  is_item (c :: 32%N :: body) = true /\
  li_html (c :: 32%N :: body) = wrap "li" (inline (trimStart (trimEnd body))).
Proof.
  intros Hc Hne Hlt. unfold is_item, li_html.
  assert (is_ws c = false) as Hws by (destruct Hc as [->| ->]; reflexivity).
  rewrite trimEnd_cons by exact Hws.
  rewrite trimEnd_cons_keep by exact Hne.
  unfold match_li.
  assert (ceq c (ch "-") || ceq c (ch "*") = true) as ->
      by (destruct Hc as [->| ->]; reflexivity).
  unfold match_after.
  change (span is_ws (32%N :: trimEnd body))
    with (let '(a, b) := span is_ws (trimEnd body) in (32%N :: a, b)).
  pose proof (span_snd is_ws (trimEnd body)) as Hsnd.
  destruct (span is_ws (trimEnd body)) as [a b] eqn:Es. simpl in Hsnd. subst b.
  fold (trimStart (trimEnd body)).
  assert (forallb (fun x => negb (is_line_terminator x)) (trimStart (trimEnd body)) = true)
    as ->; [|split; reflexivity].
  destruct (trimEnd_decomp body) as (w & E & _).
  destruct (dropWhile_decomp is_ws (trimEnd body)) as (w' & E' & _).
  fold (trimStart (trimEnd body)) in E'.
  rewrite E, E' in Hlt. rewrite !forallb_app in Hlt.
  apply andb_prop in Hlt as [Hlt _]. apply andb_prop in Hlt as [_ Hlt]. exact Hlt.
Qed.

(** C6, as the converter has it.  No list is ever nested: scanning the
    output for the two list tags never meets an opening tag inside an open
    list.  A run of consecutive item lines (a marker [-] or [*], then
    whitespace, then an item text, once trailing whitespace is cut) that
    starts where no list is open and ends at the end of the input or at a
    line that is not an item, gives one opening tag, one [li] element per
    line and one closing tag, between what comes before and what comes
    after.  A line made of a marker, a space and a text that is not blank
    and has no line terminator is such an item. *)
Theorem lists_are_flat :
  (forall md, ul_flat false (mdToHtml md) = true) /\
  (forall before items after,
      items <> [] ->
      forallb is_item items = true ->
      ends_closed before = true ->
      starts_other after = true ->
      out (run (before ++ items ++ after)) =
      out (run before) ++ [ustr "<ul>"] ++ List.map li_html items
      ++ [ustr "</ul>"] ++ out (run after)) /\
  (forall c body,
      c = ch "-" \/ c = ch "*" ->
      trimEnd body <> [] ->
      forallb (fun x => negb (is_line_terminator x)) body = true ->
      is_item (c :: 32%N :: body) = true /\
      li_html (c :: 32%N :: body) = wrap "li" (inline (trimStart (trimEnd body)))).
Proof.
  split; [exact mdToHtml_flat|]. split; [exact item_run | exact marker_line_is_item].
Qed.

(** *** Links *)

Lemma esc_char_plain c : special c = false -> esc_char c = [c].
Proof.
  unfold special, esc_char. intros Hc.
  destruct (ceq c amp), (ceq c lt), (ceq c gt), (ceq c quot);
    simpl in Hc; congruence.
Qed.



Lemma esc_cons c s : esc (c :: s) = esc_char c ++ esc s.
Proof. rewrite !esc_flat_map. reflexivity. Qed.







Lemma esc_keeps_absent d s : cutting d -> ~ In d s -> ~ In d (esc s).
Proof.
  intros Hd Hn Hin. rewrite esc_flat_map in Hin.
  apply in_flat_map in Hin as (c & Hc & Hin).
  assert (text_tok (esc_char c)) as Ht.
  { unfold esc_char.
    destruct (ceq c amp) eqn:E1; [right; simpl; auto|].
    destruct (ceq c lt) eqn:E2; [right; simpl; auto|].
    destruct (ceq c gt) eqn:E3; [right; simpl; auto|].
    destruct (ceq c quot) eqn:E4; [right; simpl; auto 6|].
    left. exists c. split; [reflexivity|]. unfold special. now rewrite E1, E2, E3, E4. }
  pose proof (text_tok_delim d _ Hd Ht Hin) as E.
  unfold esc_char in E.
  destruct (ceq c amp); [discriminate|]. destruct (ceq c lt); [discriminate|].
  destruct (ceq c gt); [discriminate|]. destruct (ceq c quot); [discriminate|].
  injection E as ->. contradiction.
Qed.







(** The grammar does refuse a tag that is not the converter's. *)
Example raw_tag_is_not_sanitized : ~ Sanitized all_tags (ustr "<b>").
Proof.
  intros Hs. inversion Hs as [|t s0 Ht Hs0 E].
  destruct Ht as [[(c & -> & Hc)|He]|[Ht|(u & Hu & ->)]].
  - injection E as -> _. discriminate Hc.
  - simpl in He. repeat (destruct He as [<-|He]; [discriminate E|]). destruct He.
  - simpl in Ht. repeat (destruct Ht as [<-|Ht]; [discriminate E|]). destruct Ht.
  - discriminate E.
Qed.

Example mdToHtml_sample :
  mdToHtml (ustr "# Hi <b>" ++ [newline] ++ ustr "- a `x` [t](http://a.b/?c=1&d=2)"
            ++ [newline] ++ ustr "> q & r")
  = join [newline]
      [ustr "<h1>Hi &lt;b&gt;</h1>"; ustr "<ul>";
       ustr "<li>a <code>x</code> " ++ anchor_open (ustr "http://a.b/?c=1&amp;amp;d=2")
         ++ ustr "t</a></li>";
       ustr "</ul>"; ustr "<blockquote>q &amp; r</blockquote>"].
Proof. vm_compute. reflexivity. Qed.

Lemma lists_are_flat_witness :
  out (run ([ustr "intro"] ++ [ustr "- a"; ustr "*  b "] ++ [ustr ""; ustr "end"]))
  = [ustr "<p>intro</p>"; ustr "<ul>"; ustr "<li>a</li>"; ustr "<li>b</li>";
     ustr "</ul>"; ustr "<p>end</p>"]
  /\ is_item (ch "-" :: 32%N :: ustr "a ") = true.
Proof.
  split.
  - rewrite (proj1 (proj2 lists_are_flat)
               [ustr "intro"] [ustr "- a"; ustr "*  b "] [ustr ""; ustr "end"]).
    + vm_compute. reflexivity.
    + discriminate.
    + vm_compute. reflexivity.
    + vm_compute. reflexivity.
    + vm_compute. reflexivity.
  - refine (proj1 (proj2 (proj2 lists_are_flat) (ch "-") (ustr "a ") _ _ _)).
    + now left.
    + vm_compute. discriminate.
    + vm_compute. reflexivity.
Defined.

(** C6 as it is worded fails.  Three consecutive lines begin with [- ], the
    second being a bare marker: it is no item but a paragraph, and the output
    holds two lists instead of one.  A line that begins with [- ] and holds
    a lone carriage return is a paragraph as well. *)
Lemma bare_marker_splits_the_list :
  ~ (forall lines,
        lines <> [] ->
        forallb begins_with_marker lines = true ->
        single_list (length lines) (out (run lines)))
  /\ out (run [ustr "- a"; ustr "- "; ustr "- b"])
     = [ustr "<ul>"; ustr "<li>a</li>"; ustr "</ul>"; ustr "<p>-</p>";
        ustr "<ul>"; ustr "<li>b</li>"; ustr "</ul>"]
  /\ begins_with_marker (trimEnd (ustr "- a" ++ [13%N] ++ ustr "b")) = true
  /\ mdToHtml (ustr "- a" ++ [13%N] ++ ustr "b")
     = ustr "<p>- a" ++ [13%N] ++ ustr "b</p>".
Proof.
  split; [|split; [vm_compute; reflexivity|split; vm_compute; reflexivity]].
  intros Hall.
  destruct (Hall [ustr "- a"; ustr "- "; ustr "- b"]) as (lis & Hlen & E);
    [discriminate | vm_compute; reflexivity |].
  apply (f_equal (@length str)) in E.
  rewrite !length_app, Hlen in E. vm_compute in E. discriminate E.
Qed.

End MdFacts.

(** ** The page *)

Module PageFacts.
Import JS JSFacts.

Lemma str_eqb_eq a b : str_eqb a b = true <-> a = b.
Proof.
  revert b. induction a as [|x a IH]; intros [|y b]; simpl;
    try (split; [discriminate | congruence]); [tauto|].
  rewrite andb_true_iff, IH. destruct (ceq_spec x y); split.
  - intros [_ ->]. now subst.
  - intros [= _ ->]. auto.
  - intros [? _]. discriminate.
  - intros [= ? _]. contradiction.
Qed.

Lemma existsb_str_eqb t l : existsb (str_eqb t) l = true <-> In t l.
Proof.
  rewrite existsb_exists. split.
  - intros (x & Hx & E). apply str_eqb_eq in E. now subst.
  - intros Hin. exists t. split; [exact Hin | now apply str_eqb_eq].
Qed.

Section Facts.
Context {H : Host}.

(** *** Filtering *)

Lemma keep_spec x tag d a v p :
  keep (normalize x) tag d a v p = true <->
  (isPrivate p = false \/ v = true) /\
  (isDraft p = false \/ d = true) /\
  (isArchived p = false \/ a = true) /\
  (normalize x = [] \/ includes (haystack p) (normalize x) = true) /\
  (tag = [] \/ In tag (default [] (tags p))).
Proof.
  unfold keep.
  assert ((match normalize x with
           | [] => true
           | _ :: _ =>
               includes
                 (normalize
                    (join (ustr " ")
                       [or_empty (title p); or_empty (description p);
                        join (ustr " ") (default [] (tags p))]))
                 (normalize x)
           end = true) <->
          (normalize x = [] \/ includes (haystack p) (normalize x) = true)) as HQ.
  { destruct (normalize x) as [|c r] eqn:E.
    - split; auto.
    - unfold normalize in E. apply trim_ends in E as [Hc Hd].
      unfold normalize at 1. fold (haystack p).
      rewrite includes_trim by assumption.
      split; [auto | intros [?|?]; [discriminate | assumption]]. }
  assert ((match tag with
           | [] => true
           | _ :: _ => existsb (str_eqb tag) (default [] (tags p))
           end = true) <->
          (tag = [] \/ In tag (default [] (tags p)))) as HT.
  { destruct tag as [|c r].
    - split; auto.
    - rewrite existsb_str_eqb.
      split; [auto | intros [?|?]; [discriminate | assumption]]. }
  assert (forall f s : bool, f && negb s = false <-> (f = false \/ s = true)) as hide
      by (intros [|] [|]; simpl; intuition discriminate).
  destruct (isPrivate p && negb v) eqn:E1;
    [split; [discriminate | intros (G & _); apply hide in G; congruence]|].
  destruct (isDraft p && negb d) eqn:E2;
    [split; [discriminate | intros (_ & G & _); apply hide in G; congruence]|].
  destruct (isArchived p && negb a) eqn:E3;
    [split; [discriminate | intros (_ & _ & G & _); apply hide in G; congruence]|].
  apply hide in E1, E2, E3.
  rewrite andb_true_iff, HQ, HT. clear HQ HT hide.
  split; [intros [G1 G2]; repeat split; assumption
         | intros (_ & _ & _ & G1 & G2); split; assumption].
Qed.

Lemma filtered_view_spec st p :
  In p (filtered_view st) <-> In p (deref st (all st)) /\ visible st p.
Proof.
  unfold filtered_view, visible. rewrite filter_In, keep_spec. reflexivity.
Qed.

Lemma applyFilters_run st : applyFilters st = (inr tt, after_filters st).
Proof.
  cbv [applyFilters after_filters filter_new render alloc bind get modify].
  cbn [heap all with_heap with_grid with_count with_rssLink
       search_value tagFilter_value showDrafts_checked showArchived_checked
       showPrivate_checked].
  fold (filtered_view st).
  assert (forall g h, deref (with_grid g (with_heap
             (<[fresh (dom (heap st)) := filtered_view st]> h) st))
             (fresh (dom (heap st))) = filtered_view st) as E.
  { intros g h. unfold deref. cbn [heap with_heap with_grid].
    now rewrite lookup_insert_eq. }
  rewrite E. reflexivity.
Qed.

(** C2.  [applyFilters] shows the cards of the filtered array, and a
    project is in that array exactly when it is one of the loaded
    projects and: it is not private or private projects are shown; it is
    not a draft or drafts are shown; it is not archived or archived
    projects are shown; the normalized query is empty or occurs in the
    lower-cased text made of its title, description and tags (with one
    space between them); the selected tag is empty or is one of its
    tags. *)
Theorem applyFilters_shows_the_visible_projects :
  (forall st, grid (snd (applyFilters st))
              = Cards (List.map card_of (filtered_view st))) /\
  (forall st p,
      In p (filtered_view st) <-> In p (deref st (all st)) /\ visible st p).
Proof.
  split; [|exact filtered_view_spec].
  intros st. rewrite applyFilters_run. reflexivity.
Qed.

(** C4.  A toggle only matters for the projects that carry its flag:
    two pages with the same projects, query and tag, that differ at most
    in one toggle, show or hide alike every project whose flag for that
    toggle is off. *)
Theorem toggles_are_independent st st' p :
  same_data st st' ->
  (isDraft p = false ->
   showArchived_checked st = showArchived_checked st' ->
   showPrivate_checked st = showPrivate_checked st' ->
   (In p (filtered_view st) <-> In p (filtered_view st'))) /\
  (isArchived p = false ->
   showDrafts_checked st = showDrafts_checked st' ->
   showPrivate_checked st = showPrivate_checked st' ->
   (In p (filtered_view st) <-> In p (filtered_view st'))) /\
  (isPrivate p = false ->
   showDrafts_checked st = showDrafts_checked st' ->
   showArchived_checked st = showArchived_checked st' ->
   (In p (filtered_view st) <-> In p (filtered_view st'))).
Proof.
  intros (Hh & Ha & Hq & Ht).
  assert (deref st (all st) = deref st' (all st')) as Hd
      by (unfold deref; now rewrite Hh, Ha).
  split; [|split]; intros Hf E1 E2; rewrite !filtered_view_spec; unfold visible;
    rewrite Hd, Hq, Ht, E1, E2, Hf; tauto.
Qed.

(** *** Loading *)

Lemma fresh_other (h : gmap loc (list Project)) l v :
  h !! l = Some v -> fresh (dom h) <> l.
Proof.
  intros Hl E. apply (is_fresh (dom h)). rewrite E.
  apply elem_of_dom. eauto.
Qed.

Lemma init_from_run src st :
  init_from (Some src) st = (inr tt, after_filters (loaded src st)).
Proof.
  cbv [init_from slice_copy sort_in_place alloc bind get modify ret].
  rewrite applyFilters_run. f_equal. f_equal.
  unfold loaded.
  cbn [heap all with_heap with_all with_tagOptions with_listeners tagOptions listeners].
  unfold deref. cbn [heap all with_heap with_all].
  rewrite !lookup_insert_eq. reflexivity.
Qed.

Lemma main_run ps st :
  main (Response (Json (Some ps))) st =
  after_filters
    (loaded (fresh (dom (heap st)))
            (with_heap (<[fresh (dom (heap st)) := ps]> (heap st)) st)).
Proof.
  unfold main, init. cbv [fetch json bind ret alloc].
  rewrite init_from_run. reflexivity.
Qed.

(** C5.  When the request fails or the body is not JSON, [init] throws
    before it assigns anything: what is left is the page as it was, with
    the error card in the grid.  On the page as first loaded, [all] is
    still the empty array it was set to, and no option, listener, count
    or feed link has been added. *)
Theorem failed_load_shows_error_and_keeps_all :
  (forall st, main Unreachable st = with_grid (Markup error_card) st) /\
  (forall st, main (Response NotJson) st = with_grid (Markup error_card) st) /\
  (forall f, f = Unreachable \/ f = Response NotJson ->
     let st' := main f initial_page in
     grid st' = Markup error_card /\
     all st' = all initial_page /\ heap st' = heap initial_page /\
     deref st' (all st') = [] /\
     tagOptions st' = [] /\ listeners st' = [] /\ rssLink st' = None).
Proof.
  split; [reflexivity|]. split; [reflexivity|].
  intros f [-> | ->]; repeat split; reflexivity.
Qed.

Lemma after_filters_extends st : extends st (after_filters st).
Proof.
  intros l v Hl. unfold after_filters.
  cbn [heap with_heap with_grid with_count with_rssLink].
  rewrite lookup_insert_ne; [exact Hl | now apply fresh_other with v].
Qed.

Lemma loaded_extends src st : extends st (loaded src st).
Proof.
  intros l v Hl. unfold loaded.
  cbn [heap with_heap with_all with_tagOptions with_listeners].
  rewrite !lookup_insert_ne; [exact Hl | |]; now apply fresh_other with v.
Qed.

Lemma extends_trans a b c : extends a b -> extends b c -> extends a c.
Proof. intros H1 H2 l v Hl. apply H2, H1, Hl. Qed.

Lemma insert_rev_perm {A} (cmp : A -> A -> option Z) x l :
  Permutation (x :: l) (insert_rev cmp x l).
Proof.
  induction l as [|y l IH]; simpl; [reflexivity|].
  destruct (0 <? sortCompare cmp y x)%Z; [|reflexivity].
  rewrite perm_swap. now constructor.
Qed.

Lemma js_sort_perm {A} (cmp : A -> A -> option Z) l :
  Permutation l (js_sort cmp l).
Proof.
  unfold js_sort. rewrite <- Permutation_rev.
  rewrite <- (app_nil_r l) at 1. generalize (@nil A).
  induction l as [|x l IH]; intros acc; simpl; [reflexivity|].
  rewrite <- IH. rewrite <- insert_rev_perm.
  apply Permutation_middle.
Qed.

(** C7.  Filtering and rendering write no array that exists: after
    [applyFilters], and after [render], the variable [all] refers to the
    same array with the same contents, and so does every other array.
    [init] sorts a copy: the parsed [data.projects] array still has its
    projects in the order of the file, and [all] is another array, which
    holds the same projects in the order that [sort] gave them. *)
Theorem loaded_data_is_not_mutated :
  (forall st v,
      heap st !! all st = Some v ->
      let st' := snd (applyFilters st) in
      all st' = all st /\ heap st' !! all st' = Some v /\ extends st st') /\
  (forall items st,
      let st' := snd (render items st) in
      all st' = all st /\ heap st' = heap st) /\
  (forall ps st,
      let data_projects := fresh (dom (heap st)) in
      let st' := main (Response (Json (Some ps))) st in
      heap st' !! data_projects = Some ps /\
      all st' <> data_projects /\
      Permutation ps (deref st' (all st')) /\
      extends st st').
Proof.
  split; [|split].
  - intros st v Hv. rewrite applyFilters_run. cbn [snd].
    split; [reflexivity|].
    split; [|apply after_filters_extends].
    apply after_filters_extends. exact Hv.
  - intros items st. split; reflexivity.
  - intros ps st. cbv zeta. rewrite main_run.
    set (lp := fresh (dom (heap st))).
    set (st1 := with_heap (<[lp := ps]> (heap st)) st).
    assert (heap st1 !! lp = Some ps) as Hlp
        by (unfold st1; cbn [heap with_heap]; apply lookup_insert_eq).
    assert (extends st st1) as H01.
    { intros l v Hl. unfold st1. cbn [heap with_heap].
      rewrite lookup_insert_ne; [exact Hl | now apply fresh_other with v]. }
    assert (all (after_filters (loaded lp st1)) = fresh (dom (heap st1))) as Hall
        by reflexivity.
    split; [|split; [|split]].
    + apply after_filters_extends, loaded_extends, Hlp.
    + rewrite Hall. now apply fresh_other with ps.
    + assert (heap (loaded lp st1) !! fresh (dom (heap st1))
              = Some (js_sort by_date_desc ps)) as Hs.
      { unfold loaded. cbn [heap with_heap with_all with_tagOptions with_listeners].
        rewrite lookup_insert_eq. unfold deref. now rewrite Hlp. }
      apply after_filters_extends in Hs.
      unfold deref. rewrite Hall, Hs. apply js_sort_perm.
    + eapply extends_trans; [exact H01|].
      eapply extends_trans; [apply loaded_extends | apply after_filters_extends].
Qed.

(** *** The order of the loaded projects *)

Lemma chain_snoc {A} (R : A -> A -> bool) l a :
  chain R (l ++ [a]) =
  chain R l && match rev l with [] => true | b :: _ => R b a end.
Proof.
  induction l as [|x l IH]; [reflexivity|].
  destruct l as [|y l].
  - simpl. now rewrite andb_true_r.
  - change (chain R ((x :: y :: l) ++ [a]))
      with (R x y && chain R ((y :: l) ++ [a])).
    rewrite IH. change (chain R (x :: y :: l)) with (R x y && chain R (y :: l)).
    rewrite andb_assoc. f_equal.
    change (rev (x :: y :: l)) with (rev (y :: l) ++ [x]).
    destruct (rev (y :: l)) eqn:E; [|reflexivity].
    apply (f_equal (@length A)) in E. rewrite length_rev in E. discriminate.
Qed.

Lemma chain_rev {A} (R : A -> A -> bool) l :
  chain R (rev l) = chain (fun a b => R b a) l.
Proof.
  induction l as [|x l IH]; [reflexivity|].
  simpl rev. rewrite chain_snoc, IH, rev_involutive.
  destruct l as [|y l]; [reflexivity|]. apply andb_comm.
Qed.

Lemma chain_map {A B} (R : B -> B -> bool) (f : A -> B) l :
  chain R (List.map f l) = chain (fun a b => R (f a) (f b)) l.
Proof.
  induction l as [|x l IH]; [reflexivity|].
  destruct l as [|y l]; [reflexivity|].
  change (R (f x) (f y) && chain R (List.map f (y :: l))
          = R (f x) (f y) && chain (fun a b => R (f a) (f b)) (y :: l)).
  now rewrite IH.
Qed.

Lemma insert_rev_head x racc :
  insert_rev by_date_desc x racc = x :: racc \/
  exists y r, racc = y :: r /\
              (0 <? sortCompare by_date_desc y x)%Z = true /\
              insert_rev by_date_desc x racc = y :: insert_rev by_date_desc x r.
Proof.
  destruct racc as [|y r]; [now left|]. simpl.
  destruct (0 <? sortCompare by_date_desc y x)%Z eqn:E; [|now left].
  right. now exists y, r.
Qed.

Lemma sortCompare_dates a b ka kb :
  timestamp a = Some ka -> timestamp b = Some kb ->
  sortCompare by_date_desc a b = (kb - ka)%Z.
Proof. intros Ha Hb. unfold sortCompare, by_date_desc. now rewrite Ha, Hb. Qed.

Lemma insert_rev_rising x racc :
  (forall p, In p (x :: racc) -> timestamp p <> None) ->
  rising racc = true -> rising (insert_rev by_date_desc x racc) = true.
Proof.
  unfold rising. induction racc as [|y r IH]; intros Hok Hr; [reflexivity|].
  destruct (timestamp x) as [kx|] eqn:Ex; [|exfalso; apply (Hok x); [now left | exact Ex]].
  destruct (timestamp y) as [ky|] eqn:Ey;
    [|exfalso; apply (Hok y); [right; now left | exact Ey]].
  simpl insert_rev. rewrite (sortCompare_dates y x ky kx Ey Ex).
  destruct (0 <? kx - ky)%Z eqn:E.
  - apply Z.ltb_lt in E.
    assert (chain (fun a b => ge_time (timestamp b) (timestamp a))
                  (insert_rev by_date_desc x r) = true) as Hi.
    { apply IH.
      - intros p [->|Hp]; apply Hok; [now left | right; now right].
      - destruct r as [|z r]; [reflexivity|].
        change (ge_time (timestamp z) (timestamp y)
                && chain (fun a b => ge_time (timestamp b) (timestamp a)) (z :: r)
                = true) in Hr.
        now apply andb_prop in Hr as [_ Hr]. }
    destruct (insert_rev_head x r) as [Eq|(z & r' & -> & _ & Eq)]; rewrite Eq in *.
    + change (ge_time (timestamp x) (timestamp y)
              && chain (fun a b => ge_time (timestamp b) (timestamp a)) (x :: r) = true).
      rewrite Hi, Ex, Ey. simpl. rewrite andb_true_r. apply Z.leb_le. lia.
    + change (ge_time (timestamp z) (timestamp y)
              && chain (fun a b => ge_time (timestamp b) (timestamp a))
                       (z :: insert_rev by_date_desc x r') = true).
      rewrite Hi, andb_true_r.
      change (ge_time (timestamp z) (timestamp y)
              && chain (fun a b => ge_time (timestamp b) (timestamp a)) (z :: r')
              = true) in Hr.
      now apply andb_prop in Hr as [Hr _].
  - apply Z.ltb_ge in E.
    change (ge_time (timestamp y) (timestamp x)
            && chain (fun a b => ge_time (timestamp b) (timestamp a)) (y :: r) = true).
    rewrite Hr, Ex, Ey. simpl. rewrite andb_true_r. apply Z.leb_le. lia.
Qed.

(** When every date that is present parses, [init] does leave the
    projects sorted, latest first. *)
Lemma sorted_when_dates_parse l :
  (forall p, In p l -> timestamp p <> None) ->
  descending (List.map timestamp (js_sort by_date_desc l)) = true /\
  Permutation l (js_sort by_date_desc l).
Proof.
  intros Hok. split; [|apply js_sort_perm].
  unfold descending, js_sort. rewrite chain_map, chain_rev.
  fold (rising (fold_left (fun racc x => insert_rev by_date_desc x racc) l [])).
  assert (forall acc,
             (forall p, In p (l ++ acc) -> timestamp p <> None) ->
             rising acc = true ->
             rising (fold_left (fun racc x => insert_rev by_date_desc x racc) l acc)
             = true) as Hgen.
  { clear Hok. induction l as [|x l IH]; intros acc Hok Hacc; [exact Hacc|].
    simpl. apply IH.
    - intros p Hp. apply Hok. apply in_app_or in Hp as [Hp|Hp].
      + right. apply in_or_app. now left.
      + apply (Permutation_in _ (Permutation_sym (insert_rev_perm by_date_desc x acc))) in Hp.
        destruct Hp as [->|Hp]; [now left|]. right. apply in_or_app. now right.
    - apply insert_rev_rising; [|exact Hacc].
      intros p [->|Hp]; apply Hok; [now left|]. right. apply in_or_app. now right. }
  apply Hgen; [|reflexivity]. intros p Hp. rewrite app_nil_r in Hp. auto.
Qed.

(** No arrangement is descending once a time value is [NaN] and there
    is something to compare it with. *)
Lemma nan_defeats_every_order (ts : list (option Z)) :
  2 <= length ts -> In None ts -> descending ts = false.
Proof.
  unfold descending. induction ts as [|a ts IH]; [simpl; lia|].
  destruct ts as [|b ts]; [simpl; lia|]. intros _ Hin.
  change (ge_time a b && chain ge_time (b :: ts) = false).
  destruct a as [x|]; [|reflexivity].
  destruct b as [y|]; [|reflexivity].
  apply andb_false_iff. right.
  destruct Hin as [?|[?|Hin]]; try discriminate.
  apply IH; [|now right].
  destruct ts; [destruct Hin | simpl; lia].
Qed.

End Facts.

(** C3, on the code.  With a date that does not parse the comparator
    gives [NaN], which the sort reads as "equal": the three projects of
    the example stay as they are in the file, the oldest first and the
    latest last, around the one whose date is no date.  The time values
    are not descending, and no other order of these projects would make
    them so. *)
Theorem unparseable_date_breaks_the_order :
  let st := main (H := exampleHost) (Response (Json (Some undated_example)))
                 initial_page in
  List.map title (deref st (all st))
    = [Some (ustr "A"); Some (ustr "X"); Some (ustr "B")] /\
  List.map (timestamp (H := exampleHost)) (deref st (all st))
    = [Some 1577836800000%Z; None; Some 1622505600000%Z] /\
  descending (List.map (timestamp (H := exampleHost)) (deref st (all st))) = false /\
  (forall l, Permutation undated_example l ->
             descending (List.map (timestamp (H := exampleHost)) l) = false).
Proof.
  cbv zeta. split; [vm_compute; reflexivity|].
  split; [vm_compute; reflexivity|]. split; [vm_compute; reflexivity|].
  intros l Hl. apply nan_defeats_every_order.
  - rewrite length_map, <- (Permutation_length Hl). simpl. lia.
  - apply in_map_iff. exists (project "X" "soon" "second").
    split; [vm_compute; reflexivity|].
    apply (Permutation_in _ Hl). simpl. auto.
Qed.

Example filter_sample :
  List.map title
    (filtered_view (H := exampleHost)
       (set_controls (ustr "  FIRST ") [] false false false example_page))
  = [Some (ustr "A")]
  /\ List.map title
       (filtered_view (H := exampleHost)
          (set_controls [] (ustr "none") true true true example_page))
     = [].
Proof. split; vm_compute; reflexivity. Qed.

Lemma toggles_are_independent_witness :
  isDraft (project "A" "2020-01-01" "first") = false /\
  (In (project "A" "2020-01-01" "first")
      (filtered_view (H := exampleHost)
         (set_controls [] [] false false false example_page))
   <-> In (project "A" "2020-01-01" "first")
          (filtered_view (H := exampleHost)
             (set_controls [] [] true false false example_page))).
Proof.
  split; [reflexivity|].
  refine (proj1 (toggles_are_independent (H := exampleHost)
                   (set_controls [] [] false false false example_page)
                   (set_controls [] [] true false false example_page)
                   (project "A" "2020-01-01" "first") _) _ _ _).
  - repeat split; reflexivity.
  - reflexivity.
  - reflexivity.
  - reflexivity.
Defined.

Lemma failed_load_witness :
  grid (main (H := exampleHost) Unreachable initial_page)
  = Markup error_card /\
  deref (main (H := exampleHost) Unreachable initial_page)
        (all (main (H := exampleHost) Unreachable initial_page)) = [].
Proof.
  destruct (proj2 (proj2 (failed_load_shows_error_and_keeps_all (H := exampleHost)))
              Unreachable (or_introl eq_refl)) as (H1 & _ & _ & H2 & _).
  split; assumption.
Defined.

Lemma loaded_data_is_not_mutated_witness :
  (heap tagged_page !! all tagged_page = Some tagged_example /\
   List.map title
     (filtered_view (H := exampleHost)
        (set_controls (ustr "art") [] false false false tagged_page))
   = [Some (ustr "One")] /\
   heap (snd (applyFilters (H := exampleHost)
                (set_controls (ustr "art") [] false false false tagged_page)))
     !! all (snd (applyFilters (H := exampleHost)
                    (set_controls (ustr "art") [] false false false tagged_page)))
   = Some tagged_example) /\
  (heap (main (H := exampleHost) (Response (Json (Some same_day_example)))
           initial_page)
     !! fresh (dom (heap initial_page)) = Some same_day_example /\
   List.map title
     (deref (main (H := exampleHost) (Response (Json (Some same_day_example)))
               initial_page)
        (all (main (H := exampleHost) (Response (Json (Some same_day_example)))
                initial_page)))
   = List.map (fun t => Some (ustr t)) ["B"; "D"; "A"; "C"]%string).
Proof.
  assert (heap (set_controls (ustr "art") [] false false false tagged_page)
            !! all (set_controls (ustr "art") [] false false false tagged_page)
          = Some tagged_example) as Hv by (vm_compute; reflexivity).
  split; [split; [exact Hv|split]|split].
  - vm_compute. reflexivity.
  - destruct (proj1 (loaded_data_is_not_mutated (H := exampleHost))
                (set_controls (ustr "art") [] false false false tagged_page)
                tagged_example Hv) as (_ & Hh & _).
    exact Hh.
  - destruct (proj2 (proj2 (loaded_data_is_not_mutated (H := exampleHost)))
                same_day_example initial_page) as (Hh & _).
    exact Hh.
  - vm_compute. reflexivity.
Defined.

End PageFacts.

(** ** The feed *)

Module RssFacts.
Section Facts.
Context {H : Host}.



(** *** Counting a tag in a text put together from parts *)














End Facts.



End RssFacts.

(** ** More about the converter *)

Module MdMore.
Import JS JSFacts Md Html HtmlFacts MdShape MdFacts MdView.

(** *** Escaping *)

Lemma length_esc_char c :
  length (esc_char c) = 1 /\ special c = false \/
  1 < length (esc_char c) /\ special c = true.
Proof.
  destruct (special c) eqn:Hs.
  - right. split; [|reflexivity]. unfold special in Hs. unfold esc_char.
    destruct (ceq c amp); [simpl; lia|]. destruct (ceq c lt); [simpl; lia|].
    destruct (ceq c gt); [simpl; lia|]. destruct (ceq c quot); [simpl; lia|].
    discriminate.
  - left. rewrite esc_char_plain by exact Hs. auto.
Qed.

Lemma length_esc s : length s <= length (esc s).
Proof.
  induction s as [|c s IH]; [simpl; lia|].
  rewrite esc_cons, length_app. simpl.
  destruct (length_esc_char c) as [[E _]|[E _]]; lia.
Qed.

Lemma esc_fixed_iff_plain s : esc s = s <-> plain s = true.
Proof.
  unfold plain. split.
  - induction s as [|c s IH]; [reflexivity|]. intros E.
    rewrite esc_cons in E.
    destruct (length_esc_char c) as [[L Hs]|[L Hs]].
    + rewrite esc_char_plain in E by exact Hs. injection E as E.
      simpl. rewrite Hs. simpl. auto.
    + exfalso. apply (f_equal (@length char)) in E.
      rewrite length_app in E. simpl in E.
      pose proof (length_esc s). lia.
  - induction s as [|c s IH]; [reflexivity|]. simpl. intros E.
    apply andb_prop in E as [Hc Hs]. apply negb_true_iff in Hc.
    rewrite esc_cons, esc_char_plain by exact Hc. simpl. now rewrite IH.
Qed.

(** [esc] leaves a string as it is exactly when the string holds none of
    the four characters. *)
Theorem esc_fixes_plain_strings_only s : esc s = s <-> plain s = true.
Proof. apply esc_fixed_iff_plain. Qed.

(** *** Text without markers *)

(** A text with no backtick and no opening bracket is escaped and nothing
    else; with none of the four characters either it comes out as it is. *)
Theorem inline_of_plain_text s :
  ~ In backtick s -> ~ In lbracket s ->
  inline s = esc s /\ (plain s = true -> inline s = s).
Proof.
  intros Hb Hl.
  assert (inline s = esc s) as E.
  { unfold inline.
    rewrite (replace_all_without code_match backtick);
      [|exact code_match_shrinks | exact code_match_trigger
       |apply esc_keeps_absent; [apply cutting_backtick | exact Hb]].
    apply (replace_all_without link_match lbracket);
      [exact link_match_shrinks | exact link_match_trigger|].
    apply esc_keeps_absent; [apply cutting_lbracket | exact Hl]. }
  split; [exact E|]. intros Hp. rewrite E. now apply esc_fixed_iff_plain.
Qed.

Lemma inline_of_plain_text_witness :
  inline (ustr "2 < 3 & 4") = esc (ustr "2 < 3 & 4") /\ inline (ustr "plain") = ustr "plain".
Proof.
  assert (forall d s, existsb (ceq d) s = false -> ~ In d s) as Hn.
  { intros d s E Hin.
    assert (existsb (ceq d) s = true) as E'
        by (apply existsb_exists; exists d; split; [exact Hin | apply N.eqb_refl]).
    congruence. }
  split.
  - refine (proj1 (inline_of_plain_text (ustr "2 < 3 & 4") _ _));
      apply Hn; vm_compute; reflexivity.
  - refine (proj2 (inline_of_plain_text (ustr "plain") _ _) _);
      [apply Hn; vm_compute; reflexivity .. | vm_compute; reflexivity].
Defined.

(** *** One element for each line that is not blank *)

Lemma wrap_shape tag body :
  In tag plain_blocks ->
  is_list_tag (wrap tag body) = false /\ wrap tag body <> [].
Proof.
  intros Ht. simpl in Ht.
  repeat (destruct Ht as [<-|Ht]; [split; [reflexivity | discriminate]|]).
  destruct Ht.
Qed.

Ltac pushed_block tag :=
  eexists; split; [reflexivity|]; split; [reflexivity|];
  split; [apply (wrap_shape tag); simpl; auto 10|];
  split; [apply (wrap_shape tag); simpl; auto 10 | discriminate].

Lemma step_start_other raw :
  is_item raw = false ->
  (step {| out := []; inList := false |} raw = {| out := []; inList := false |}
   /\ element raw = None /\ trim (trimEnd raw) = []) \/
  (exists x, step {| out := []; inList := false |} raw
             = push x {| out := []; inList := false |}
             /\ element raw = Some x /\ is_list_tag x = false /\ x <> []
             /\ trim (trimEnd raw) <> []).
Proof.
  unfold is_item, element, step. intros Hn.
  destruct (match_li (trimEnd raw)); [discriminate|].
  destruct (trim (trimEnd raw)) as [|c t]; [left; repeat split; reflexivity|].
  right.
  destruct (startsWith _ _); [pushed_block "blockquote"%string|].
  destruct (match_heading (ustr "###") _); [pushed_block "h3"%string|].
  destruct (match_heading (ustr "##") _); [pushed_block "h2"%string|].
  destruct (match_heading (ustr "#") _); [pushed_block "h1"%string|].
  pushed_block "p"%string.
Qed.

Lemma element_item raw :
  is_item raw = true ->
  element raw = Some (li_html raw) /\ is_list_tag (li_html raw) = false
  /\ li_html raw <> [].
Proof.
  intros Hi. unfold element. rewrite step_item by exact Hi.
  split; [reflexivity|]. unfold li_html, is_item in *.
  destruct (match_li (trimEnd raw)); [|discriminate].
  apply (wrap_shape "li"). simpl. auto 10.
Qed.

(** What an iteration does, in terms of the element of the line. *)
Lemma step_element st raw :
  step st raw =
  match element raw with
  | None => closeList st
  | Some x => push x (if is_item raw then open_list st else closeList st)
  end.
Proof.
  destruct (is_item raw) eqn:Hi.
  - rewrite step_item by exact Hi.
    now destruct (element_item raw Hi) as (-> & _).
  - destruct (step_other st raw Hi) as [_ ->].
    assert (closeList st = shift (out (closeList st)) {| out := []; inList := false |}) as E.
    { unfold shift. simpl. rewrite app_nil_r.
      pose proof (closeList_closed st) as Hc.
      destruct (closeList st) as [o b]. simpl in *. now subst. }
    rewrite E at 1. rewrite step_shift.
    destruct (step_start_other raw Hi) as [(-> & -> & _)|(x & -> & -> & _)].
    + now rewrite <- E.
    + rewrite <- push_shift. now rewrite <- E.
Qed.

Lemma element_shape raw x :
  element raw = Some x -> is_list_tag x = false /\ x <> [].
Proof.
  intros E. destruct (is_item raw) eqn:Hi.
  - destruct (element_item raw Hi) as (E' & H1 & H2).
    rewrite E in E'. injection E' as ->. auto.
  - destruct (step_start_other raw Hi) as [(_ & E' & _)|(y & _ & E' & H1 & H2 & _)];
      rewrite E in E'; [discriminate|]. injection E' as ->. auto.
Qed.

Lemma content_app a b : content (a ++ b) = content a ++ content b.
Proof. apply List.filter_app. Qed.

Lemma content_closeList st : content (out (closeList st)) = content (out st).
Proof.
  unfold closeList. destruct (inList st); [|reflexivity].
  simpl. rewrite content_app. simpl. apply app_nil_r.
Qed.

Lemma content_open_list st : content (out (open_list st)) = content (out st).
Proof.
  unfold open_list. destruct (inList st); [reflexivity|].
  simpl. rewrite content_app. simpl. apply app_nil_r.
Qed.

Lemma content_step st raw :
  content (out (step st raw))
  = content (out st) ++ match element raw with None => [] | Some x => [x] end.
Proof.
  rewrite step_element. destruct (element raw) as [x|] eqn:E.
  - destruct (element_shape raw x E) as [Hx _].
    unfold push. simpl. rewrite content_app. simpl.
    unfold content at 2. simpl. rewrite Hx. simpl.
    destruct (is_item raw);
      [now rewrite content_open_list | now rewrite content_closeList].
  - rewrite content_closeList. now rewrite app_nil_r.
Qed.

Lemma content_run lines :
  content (out (run lines)) = omap element lines.
Proof.
  unfold run. rewrite content_closeList.
  change (omap element lines)
    with (content (out {| out := []; inList := false |}) ++ omap element lines).
  generalize {| out := []; inList := false |}.
  induction lines as [|l ls IH]; intros st; simpl; [now rewrite app_nil_r|].
  rewrite IH, content_step, <- app_assoc. f_equal.
  now destruct (element l).
Qed.

(** *** Every list is closed *)

Lemma lists_S n : lists (S n) = lists n ++ [ustr "<ul>"; ustr "</ul>"].
Proof.
  unfold lists. induction n as [|n IH]; [reflexivity|].
  change (concat (repeat [ustr "<ul>"; ustr "</ul>"] (S (S n))))
    with ([ustr "<ul>"; ustr "</ul>"]
            ++ concat (repeat [ustr "<ul>"; ustr "</ul>"] (S n))).
  rewrite IH at 1.
  change (concat (repeat [ustr "<ul>"; ustr "</ul>"] (S n)))
    with ([ustr "<ul>"; ustr "</ul>"]
            ++ concat (repeat [ustr "<ul>"; ustr "</ul>"] n)).
  now rewrite <- app_assoc.
Qed.

Lemma closeList_tags st : list_tags_ok st -> list_tags_ok (closeList st).
Proof.
  intros [n E]. unfold closeList. destruct (inList st) eqn:Hl.
  - exists (S n). rewrite lists_S. cbn [out inList].
    rewrite List.filter_app, E, app_nil_r.
    change (List.filter is_list_tag [ustr "</ul>"]) with [ustr "</ul>"].
    now rewrite <- app_assoc.
  - exists n. now rewrite Hl.
Qed.

Lemma open_list_tags st : list_tags_ok st -> list_tags_ok (open_list st).
Proof.
  intros [n E]. unfold open_list. destruct (inList st) eqn:Hl.
  - exists n. now rewrite Hl.
  - exists n. simpl. rewrite List.filter_app, E. simpl. now rewrite app_nil_r.
Qed.

Lemma push_tags x st :
  is_list_tag x = false -> list_tags_ok st -> list_tags_ok (push x st).
Proof.
  intros Hx [n E]. exists n. unfold push. simpl.
  rewrite List.filter_app, E. simpl. rewrite Hx. now rewrite app_nil_r.
Qed.

Lemma step_tags st raw : list_tags_ok st -> list_tags_ok (step st raw).
Proof.
  intros Hs. rewrite step_element. destruct (element raw) as [x|] eqn:E.
  - apply push_tags; [apply (element_shape raw x E)|].
    destruct (is_item raw); [now apply open_list_tags | now apply closeList_tags].
  - now apply closeList_tags.
Qed.

(** Among the elements of the output the list tags alternate, an opening
    tag first and a closing tag last: every list that is opened is closed,
    and none is opened inside another. *)
Theorem every_list_is_closed lines :
  exists n, List.filter is_list_tag (out (run lines)) = lists n.
Proof.
  assert (list_tags_ok (run lines)) as [n E].
  { unfold run. apply closeList_tags.
    assert (list_tags_ok {| out := []; inList := false |}) as H0 by (now exists 0).
    revert H0. generalize {| out := []; inList := false |}.
    induction lines as [|l ls IH]; intros st Hs; simpl; [exact Hs|].
    apply IH, step_tags, Hs. }
  exists n. rewrite E. unfold run. rewrite closeList_closed. apply app_nil_r.
Qed.

(** *** Blank input *)

Lemma trimEnd_nil s : trimEnd s = [] <-> forallb is_ws s = true.
Proof.
  split.
  - intros E. destruct (trimEnd_decomp s) as (w & Es & Hw).
    rewrite E in Es. simpl in Es. now subst.
  - intros E. unfold trimEnd. rewrite dropWhile_all; [reflexivity|].
    now rewrite forallb_rev.
Qed.

Lemma trim_nil s : trim s = [] <-> forallb is_ws s = true.
Proof.
  unfold trim, trimStart. rewrite trimEnd_nil. split.
  - intros E. destruct (dropWhile_decomp is_ws s) as (w & Es & Hw).
    rewrite Es, forallb_app, Hw, E. reflexivity.
  - intros E. now rewrite dropWhile_all.
Qed.

Lemma blank_line raw : trim (trimEnd raw) = [] <-> forallb is_ws raw = true.
Proof.
  rewrite trim_nil. split.
  - intros E. destruct (trimEnd_decomp raw) as (w & Es & Hw).
    rewrite Es, forallb_app, E, Hw. reflexivity.
  - intros E. apply trimEnd_nil in E. now rewrite E.
Qed.

(** A line has no element exactly when it is blank. *)
Lemma element_none raw : element raw = None <-> forallb is_ws raw = true.
Proof.
  rewrite <- blank_line. destruct (is_item raw) eqn:Hi.
  - destruct (element_item raw Hi) as (E & _). rewrite E.
    split; [discriminate|]. intros Hb. exfalso.
    unfold is_item, match_li in Hi.
    destruct (trimEnd raw) as [|c r]; [discriminate|].
    destruct (ceq c (ch "-") || ceq c (ch "*")) eqn:Ec; [|discriminate].
    rewrite trim_cons in Hb; [discriminate|].
    apply orb_prop in Ec as [Ec|Ec];
      [destruct (ceq_spec c (ch "-")) as [->|]
      |destruct (ceq_spec c (ch "*")) as [->|]]; try discriminate; reflexivity.
  - destruct (step_start_other raw Hi) as [(_ & E & Hb)|(x & _ & E & _ & _ & Hb)];
      rewrite E; split; auto; try discriminate. intros Hb'. contradiction.
Qed.

(** The elements of the output other than the list tags are, in order, the
    elements of the lines that are not blank: one for each such line, and
    none for a blank line. *)
Theorem one_element_per_line lines :
  content (out (run lines)) = omap element lines /\
  (forall raw, element raw = None <-> forallb is_ws raw = true).
Proof. split; [apply content_run | apply element_none]. Qed.

Lemma forallb_replace_crlf (P : char -> bool) s :
  P 10%N = true -> P 13%N = true ->
  forallb P (replace_crlf s) = forallb P s.
Proof.
  intros H10 H13.
  assert (forallb P (replace_crlf s) = forallb P s
          /\ forall c, forallb P (replace_crlf (c :: s)) = forallb P (c :: s)) as [E _];
    [|exact E].
  induction s as [|d s [IH1 IH2]].
  - split; [reflexivity|]. intros c. simpl. now destruct (ceq c 13%N).
  - split; [apply IH2|]. intros c.
    change (replace_crlf (c :: d :: s))
      with (if ceq c 13%N
            then if ceq d 10%N then 10%N :: replace_crlf s
                 else c :: replace_crlf (d :: s)
            else c :: replace_crlf (d :: s)).
    destruct (ceq_spec c 13%N) as [->|].
    + destruct (ceq_spec d 10%N) as [->|].
      * cbn [forallb]. now rewrite IH1, H10, H13.
      * cbn [forallb]. rewrite IH2. reflexivity.
    + cbn [forallb]. rewrite IH2. reflexivity.
Qed.

Lemma forallb_split (P : char -> bool) sep s :
  P sep = true ->
  forallb (forallb P) (split sep s) = forallb P s.
Proof.
  intros Hsep. induction s as [|c s IH]; [reflexivity|].
  simpl. destruct (ceq_spec c sep) as [->|].
  - simpl. now rewrite IH, Hsep.
  - destruct (split sep s) as [|l ls]; simpl in *.
    + now rewrite <- IH, andb_true_r.
    + now rewrite <- IH, andb_assoc.
Qed.

Lemma join_nil_inv sep (l : list str) :
  join sep l = [] -> sep <> [] -> l = [] \/ l = [[]].
Proof.
  intros E Hs. destruct l as [|x [|y l]]; [now left | right; simpl in E; now subst|].
  exfalso. change (x ++ sep ++ join sep (y :: l) = []) in E.
  apply app_eq_nil in E as [_ E]. apply app_eq_nil in E as [E _]. contradiction.
Qed.

Lemma out_nonempty_elements lines x : In x (out (run lines)) -> x <> [].
Proof.
  intros Hin. destruct (is_list_tag x) eqn:Ht.
  - unfold is_list_tag in Ht. intros ->. discriminate.
  - assert (In x (content (out (run lines)))) as Hc
        by (apply filter_In; split; [exact Hin | now rewrite Ht]).
    rewrite content_run in Hc.
    apply list_elem_of_In, list_elem_of_omap in Hc as (raw & _ & E).
    apply (element_shape raw x E).
Qed.

Lemma fold_blank lines st :
  forallb (forallb is_ws) lines = true ->
  fold_left step lines st = match lines with [] => st | _ :: _ => closeList st end.
Proof.
  revert st. induction lines as [|l ls IH]; intros st Hb; [reflexivity|].
  simpl in Hb. apply andb_prop in Hb as [Hl Hls]. simpl.
  rewrite step_element. apply element_none in Hl. rewrite Hl.
  rewrite IH by exact Hls. destruct ls; [reflexivity | apply closeList_idem].
Qed.

(** The output is empty exactly when the input is blank: nothing but
    whitespace and line breaks, or nothing at all. *)
Theorem blank_input_gives_nothing md :
  mdToHtml md = [] <-> forallb is_ws md = true.
Proof.
  rewrite <- (forallb_replace_crlf is_ws md) by reflexivity.
  rewrite <- (forallb_split is_ws newline) by reflexivity.
  fold (lines_of md). unfold mdToHtml. split.
  - intros E. apply join_nil_inv in E; [|discriminate].
    assert (out (run (lines_of md)) = []) as E'.
    { destruct E as [E|E]; [exact E|]. exfalso.
      apply (out_nonempty_elements (lines_of md) []); [|reflexivity].
      rewrite E. now left. }
    pose proof (content_run (lines_of md)) as Hc. rewrite E' in Hc.
    apply forallb_forall. intros l Hl. apply element_none.
    destruct (element l) as [x|] eqn:Ex; [|reflexivity]. exfalso.
    assert (x ∈ omap element (lines_of md)) as Hx
        by (apply list_elem_of_omap; exists l; split;
            [now apply list_elem_of_In | exact Ex]).
    rewrite <- Hc in Hx. simpl in Hx. now apply not_elem_of_nil in Hx.
  - intros Hb. unfold run. rewrite fold_blank by exact Hb.
    now destruct (lines_of md).
Qed.

(** *** Line endings *)

Lemma split_without sep s : ~ In sep s -> split sep s = [s].
Proof.
  induction s as [|c s IH]; [reflexivity|]. intros Hn. simpl.
  destruct (ceq_spec c sep) as [->|]; [exfalso; apply Hn; now left|].
  rewrite IH; [reflexivity|]. intros Hin. apply Hn. now right.
Qed.

Lemma split_app sep x rest :
  ~ In sep x -> split sep (x ++ sep :: rest) = x :: split sep rest.
Proof.
  induction x as [|c x IH]; intros Hn; simpl.
  - destruct (ceq_spec sep sep); [reflexivity | contradiction].
  - destruct (ceq_spec c sep) as [->|]; [exfalso; apply Hn; now left|].
    rewrite IH; [reflexivity|]. intros Hin. apply Hn. now right.
Qed.

Lemma no_breaks_absent l :
  no_breaks l = true -> ~ In 10%N l /\ ~ In 13%N l.
Proof.
  unfold no_breaks. intros Hb.
  split; intros Hin; apply (proj1 (forallb_forall _ _) Hb) in Hin; discriminate.
Qed.

Lemma split_join ls :
  ls <> [] -> forallb no_breaks ls = true ->
  split newline (join [newline] ls) = ls.
Proof.
  induction ls as [|x ls IH]; [congruence|]. intros _ Hb.
  simpl in Hb. apply andb_prop in Hb as [Hx Hls].
  apply no_breaks_absent in Hx as [Hx _].
  destruct ls as [|y ls]; [now apply split_without|].
  change (join [newline] (x :: y :: ls)) with (x ++ newline :: join [newline] (y :: ls)).
  rewrite split_app by exact Hx. f_equal. apply IH; [discriminate | exact Hls].
Qed.

Lemma replace_crlf_without s : ~ In 13%N s -> replace_crlf s = s.
Proof.
  induction s as [|c s IH]; [reflexivity|]. intros Hn.
  assert (replace_crlf (c :: s) = c :: replace_crlf s) as ->.
  { simpl. destruct (ceq_spec c 13%N) as [->|]; [exfalso; apply Hn; now left|].
    reflexivity. }
  rewrite IH; [reflexivity|]. intros Hin. apply Hn. now right.
Qed.

Lemma replace_crlf_app x rest :
  ~ In 13%N x ->
  replace_crlf (x ++ crlf ++ rest) = x ++ newline :: replace_crlf rest.
Proof.
  induction x as [|c x IH]; intros Hn; [reflexivity|].
  assert (replace_crlf ((c :: x) ++ crlf ++ rest)
          = c :: replace_crlf (x ++ crlf ++ rest)) as ->.
  { simpl. destruct (ceq_spec c 13%N) as [->|]; [exfalso; apply Hn; now left|].
    reflexivity. }
  rewrite IH; [reflexivity|]. intros Hin. apply Hn. now right.
Qed.

Lemma replace_crlf_join ls :
  forallb no_breaks ls = true ->
  replace_crlf (join crlf ls) = join [newline] ls.
Proof.
  induction ls as [|x ls IH]; [reflexivity|]. intros Hb.
  simpl in Hb. apply andb_prop in Hb as [Hx Hls].
  apply no_breaks_absent in Hx as [_ Hx].
  destruct ls as [|y ls]; [now apply replace_crlf_without|].
  change (join crlf (x :: y :: ls)) with (x ++ crlf ++ join crlf (y :: ls)).
  rewrite replace_crlf_app by exact Hx. rewrite IH by exact Hls. reflexivity.
Qed.

Lemma join_lines_without_cr ls :
  forallb no_breaks ls = true -> ~ In 13%N (join [newline] ls).
Proof.
  induction ls as [|x ls IH]; [intros _ []|]. intros Hb.
  simpl in Hb. apply andb_prop in Hb as [Hx Hls].
  apply no_breaks_absent in Hx as [_ Hx].
  destruct ls as [|y ls]; [exact Hx|].
  change (join [newline] (x :: y :: ls)) with (x ++ newline :: join [newline] (y :: ls)).
  intros Hin. apply in_app_or in Hin as [Hin|[Hin|Hin]];
    [now apply Hx | discriminate Hin | now apply IH].
Qed.

(** Lines joined by carriage return and line feed are read as the same
    lines joined by line feeds, and the lines read are the lines joined:
    the output is the one of [run] on these lines. *)
Theorem crlf_is_read_as_lf ls :
  ls <> [] -> forallb no_breaks ls = true ->
  lines_of (join crlf ls) = ls /\
  lines_of (join [newline] ls) = ls /\
  mdToHtml (join crlf ls) = mdToHtml (join [newline] ls) /\
  mdToHtml (join [newline] ls) = join [newline] (out (run ls)).
Proof.
  intros Hne Hb.
  assert (lines_of (join crlf ls) = ls) as E1
      by (unfold lines_of; rewrite replace_crlf_join by exact Hb; now apply split_join).
  assert (lines_of (join [newline] ls) = ls) as E2.
  { unfold lines_of.
    rewrite replace_crlf_without by now apply join_lines_without_cr.
    now apply split_join. }
  unfold mdToHtml. rewrite E1, E2. auto.
Qed.

Lemma crlf_is_read_as_lf_witness :
  mdToHtml (join crlf [ustr "# T"; ustr "- a"; ustr "- b"])
  = join [newline] [ustr "<h1>T</h1>"; ustr "<ul>"; ustr "<li>a</li>";
                    ustr "<li>b</li>"; ustr "</ul>"].
Proof.
  destruct (crlf_is_read_as_lf [ustr "# T"; ustr "- a"; ustr "- b"])
    as (_ & _ & E1 & E2); [discriminate | vm_compute; reflexivity |].
  rewrite E1, E2. vm_compute. reflexivity.
Defined.

End MdMore.

(** ** More about the page *)

Module PageMore.
Import JS JSFacts PageFacts.

(** *** Sorting *)

Section SortFacts.
Context {A : Type}.
Variable comparefn : A -> A -> option Z.

Lemma insert_rev_first x racc :
  insert_rev comparefn x racc = x :: racc \/
  exists y r, racc = y :: r /\
              (0 <? sortCompare comparefn y x)%Z = true /\
              insert_rev comparefn x racc = y :: insert_rev comparefn x r.
Proof.
  destruct racc as [|y r]; [now left|]. simpl.
  destruct (0 <? sortCompare comparefn y x)%Z eqn:E; [|now left].
  right. now exists y, r.
Qed.

Lemma insert_rev_falling x racc :
  (forall a b, In a (x :: racc) -> In b (x :: racc) ->
               (0 < sortCompare comparefn a b)%Z ->
               (sortCompare comparefn b a <= 0)%Z) ->
  falling comparefn racc = true -> falling comparefn (insert_rev comparefn x racc) = true.
Proof.
  unfold falling. induction racc as [|y r IH]; intros Ha Hr; [reflexivity|].
  simpl insert_rev. destruct (0 <? sortCompare comparefn y x)%Z eqn:E.
  - apply Z.ltb_lt in E.
    assert (chain (fun y x => (sortCompare comparefn x y <=? 0)%Z)
                  (insert_rev comparefn x r) = true) as Hi.
    { apply IH.
      - intros a b Ia Ib. apply Ha.
        + destruct Ia as [->|Ia]; [now left | right; now right].
        + destruct Ib as [->|Ib]; [now left | right; now right].
      - destruct r as [|z r]; [reflexivity|].
        change ((sortCompare comparefn z y <=? 0)%Z
                && chain (fun y x => (sortCompare comparefn x y <=? 0)%Z) (z :: r)
                = true) in Hr.
        now apply andb_prop in Hr as [_ Hr]. }
    destruct (insert_rev_first x r) as [Eq|(z & r' & -> & _ & Eq)]; rewrite Eq in *.
    + change ((sortCompare comparefn x y <=? 0)%Z
              && chain (fun y x => (sortCompare comparefn x y <=? 0)%Z) (x :: r) = true).
      rewrite Hi, andb_true_r. apply Z.leb_le.
      apply Ha; [right; now left | now left | exact E].
    + change ((sortCompare comparefn z y <=? 0)%Z
              && chain (fun y x => (sortCompare comparefn x y <=? 0)%Z)
                       (z :: insert_rev comparefn x r') = true).
      rewrite Hi, andb_true_r.
      change ((sortCompare comparefn z y <=? 0)%Z
              && chain (fun y x => (sortCompare comparefn x y <=? 0)%Z) (z :: r')
              = true) in Hr.
      now apply andb_prop in Hr as [Hr _].
  - apply Z.ltb_ge in E.
    change ((sortCompare comparefn y x <=? 0)%Z
            && chain (fun y x => (sortCompare comparefn x y <=? 0)%Z) (y :: r) = true).
    rewrite Hr, andb_true_r. now apply Z.leb_le.
Qed.

Lemma antisymmetric_on_spec l :
  antisymmetric_on comparefn l = true ->
  forall a b, In a l -> In b l ->
              (0 < sortCompare comparefn a b)%Z -> (sortCompare comparefn b a <= 0)%Z.
Proof.
  unfold antisymmetric_on. intros Hl a b Ia Ib Hp.
  apply (proj1 (forallb_forall _ _) Hl) in Ia.
  apply (proj1 (forallb_forall _ _) Ia) in Ib.
  apply Z.ltb_lt in Hp. rewrite Hp in Ib. simpl in Ib. now apply Z.leb_le.
Qed.

(** The model of [Array.prototype.sort] sorts, for a comparator that is
    antisymmetric on the elements. *)
Lemma js_sort_in_order l :
  antisymmetric_on comparefn l = true ->
  in_order comparefn (js_sort comparefn l) = true.
Proof.
  intros Ha. pose proof (antisymmetric_on_spec l Ha) as Hs.
  unfold in_order, js_sort. rewrite chain_rev.
  fold (falling comparefn (fold_left (fun racc x => insert_rev comparefn x racc) l [])).
  assert (forall l' acc,
             (forall p, In p (l' ++ acc) -> In p l) ->
             falling comparefn acc = true ->
             falling comparefn
               (fold_left (fun racc x => insert_rev comparefn x racc) l' acc)
             = true) as Hgen.
  { induction l' as [|x l' IH]; intros acc Hin Hacc; [exact Hacc|].
    simpl. apply IH.
    - intros p Hp. apply Hin. apply in_app_or in Hp as [Hp|Hp].
      + right. apply in_or_app. now left.
      + apply (Permutation_in _ (Permutation_sym (insert_rev_perm comparefn x acc))) in Hp.
        destruct Hp as [->|Hp]; [now left|]. right. apply in_or_app. now right.
    - apply insert_rev_falling; [|exact Hacc].
      intros a b Ia Ib. apply Hs; apply Hin.
      + destruct Ia as [->|Ia]; [now left | right; apply in_or_app; now right].
      + destruct Ib as [->|Ib]; [now left | right; apply in_or_app; now right]. }
  apply Hgen; [|reflexivity]. intros p Hp. now rewrite app_nil_r in Hp.
Qed.

(** The elements that a test picks keep their order, when the comparator
    is never positive from one of them to anything it picks. *)
Lemma insert_rev_filter (P : A -> bool) x racc :
  (forall y, (0 < sortCompare comparefn y x)%Z -> P x = true -> P y = false) ->
  List.filter P (insert_rev comparefn x racc)
  = (if P x then [x] else []) ++ List.filter P racc.
Proof.
  intros Hsk. induction racc as [|y r IH]; [simpl; now destruct (P x)|].
  simpl insert_rev. destruct (0 <? sortCompare comparefn y x)%Z eqn:E.
  - apply Z.ltb_lt in E. simpl. rewrite IH.
    destruct (P x) eqn:Px; [|reflexivity].
    now rewrite (Hsk y E eq_refl).
  - simpl. now destruct (P x).
Qed.

End SortFacts.

Section More.
Context {H : Host}.

(** *** The tags offered *)

Lemma set_add_In t x seen : In t (set_add x seen) <-> t = x \/ In t seen.
Proof.
  induction seen as [|y seen IH]; simpl; [intuition|].
  destruct (str_eqb y x) eqn:E.
  - apply str_eqb_eq in E. subst. simpl. intuition.
  - simpl. rewrite IH. intuition.
Qed.

Lemma set_add_NoDup x seen : List.NoDup seen -> List.NoDup (set_add x seen).
Proof.
  induction seen as [|y seen IH]; intros Hn; simpl.
  - constructor; [intros []|constructor].
  - destruct (str_eqb y x) eqn:E; [exact Hn|].
    apply List.NoDup_cons_iff in Hn as [Hy Hn]. constructor; [|auto].
    rewrite set_add_In. intros [->|Hin]; [|contradiction].
    assert (str_eqb x x = true) by now apply str_eqb_eq. congruence.
Qed.

Lemma add_all_spec ts seen :
  (List.NoDup seen -> List.NoDup (fold_left (fun set t => set_add t set) ts seen)) /\
  (forall t, In t (fold_left (fun set t => set_add t set) ts seen)
             <-> In t ts \/ In t seen).
Proof.
  revert seen. induction ts as [|x ts IH]; intros seen; simpl.
  - split; [auto|]. intuition.
  - destruct (IH (set_add x seen)) as [IH1 IH2]. split.
    + intros Hn. apply IH1. now apply set_add_NoDup.
    + intros t. rewrite IH2, set_add_In. intuition.
Qed.

Lemma uniqueTags_spec items :
  List.NoDup (uniqueTags items) /\
  (forall t, In t (uniqueTags items)
             <-> exists p, In p items /\ In t (default [] (tags p))).
Proof.
  unfold uniqueTags.
  set (cmp := fun a b : str => Some (localeCompare a b)).
  set (collect := fold_left
                    (fun set p => fold_left (fun set t => set_add t set)
                                            (default [] (tags p)) set)).
  assert (forall seen,
             (List.NoDup seen -> List.NoDup (collect items seen)) /\
             (forall t, In t (collect items seen)
                        <-> (exists p, In p items /\ In t (default [] (tags p)))
                            \/ In t seen)) as Hc.
  { unfold collect. induction items as [|p items IH]; intros seen; simpl.
    - split; [auto|]. intros t. split; [auto|]. intros [(p & [] & _)|Hs]. exact Hs.
    - destruct (add_all_spec (default [] (tags p)) seen) as [A1 A2].
      destruct (IH (fold_left (fun set t => set_add t set) (default [] (tags p)) seen))
        as [IH1 IH2].
      split; [auto|]. intros t. rewrite IH2, A2. split.
      + intros [(q & Hq & Ht)|[Ht|Hs]]; [left; exists q; auto | left; exists p; auto | now right].
      + intros [(q & [<-|Hq] & Ht)|Hs]; [right; now left | left; exists q; auto | right; now right]. }
  destruct (Hc []) as [C1 C2].
  pose proof (js_sort_perm cmp (collect items [])) as Hp.
  split.
  - apply (Permutation_NoDup Hp), C1. constructor.
  - intros t. split.
    + intros Hin. apply (Permutation_in _ (Permutation_sym Hp)) in Hin.
      apply C2 in Hin as [Hin|[]]. exact Hin.
    + intros Hin. apply (Permutation_in _ Hp). apply C2. now left.
Qed.

(** The options of the tag filter are the tags of the projects, each one
    once. *)
Theorem uniqueTags_are_the_distinct_tags items :
  List.NoDup (uniqueTags items) /\
  (forall t, In t (uniqueTags items)
             <-> exists p, In p items /\ In t (default [] (tags p))).
Proof. apply uniqueTags_spec. Qed.

(** The options are in the order of [localeCompare], when on these tags it
    never puts two of them each before the other. *)
Theorem uniqueTags_are_in_order items :
  antisymmetric_on (fun a b => Some (localeCompare a b)) (uniqueTags items) = true ->
  in_order (fun a b => Some (localeCompare a b)) (uniqueTags items) = true.
Proof.
  intros Ha. unfold uniqueTags in *.
  set (cmp := fun a b : str => Some (localeCompare a b)) in *.
  set (l := fold_left _ items []) in *.
  apply js_sort_in_order.
  pose proof (js_sort_perm cmp l) as Hp.
  pose proof (antisymmetric_on_spec cmp _ Ha) as Hs.
  unfold antisymmetric_on. apply forallb_forall. intros a Ia.
  apply forallb_forall. intros b Ib.
  apply (Permutation_in _ Hp) in Ia. apply (Permutation_in _ Hp) in Ib.
  destruct (0 <? sortCompare cmp a b)%Z eqn:E; [|reflexivity].
  simpl. apply Z.leb_le. apply Hs; auto. now apply Z.ltb_lt.
Qed.

(** *** Loading *)

Lemma main_all ps st :
  let st' := main (Response (Json (Some ps))) st in
  deref st' (all st') = js_sort by_date_desc ps.
Proof.
  cbv zeta. rewrite main_run.
  set (lp := fresh (dom (heap st))).
  set (st1 := with_heap (<[lp := ps]> (heap st)) st).
  assert (heap (loaded lp st1) !! fresh (dom (heap st1))
          = Some (js_sort by_date_desc ps)) as Hs.
  { unfold loaded. cbn [heap with_heap with_all with_tagOptions with_listeners].
    rewrite lookup_insert_eq. unfold deref, st1. cbn [heap with_heap].
    now rewrite lookup_insert_eq. }
  apply after_filters_extends in Hs.
  unfold deref.
  change (all (after_filters (loaded lp st1))) with (fresh (dom (heap st1))).
  now rewrite Hs.
Qed.

(** Loading loses no project and repeats none: [all] holds the projects of
    the file, in some order, whatever their dates are. *)
Theorem load_keeps_every_project ps st :
  let st' := main (Response (Json (Some ps))) st in
  Permutation ps (deref st' (all st')).
Proof. cbv zeta. rewrite main_all. apply js_sort_perm. Qed.

(** When every date that is present parses, [all] is in descending order
    of date after loading, the projects without a date counting as time 0. *)
Theorem load_sorts_the_dates_that_parse ps st :
  (forall p, In p ps -> timestamp p <> None) ->
  let st' := main (Response (Json (Some ps))) st in
  descending (List.map timestamp (deref st' (all st'))) = true.
Proof.
  intros Hok. cbv zeta. rewrite main_all. now apply sorted_when_dates_parse.
Qed.

Lemma by_date_skip x y :
  (0 < sortCompare by_date_desc y x)%Z ->
  forall k, time_eqb (timestamp x) k = true -> time_eqb (timestamp y) k = false.
Proof.
  unfold sortCompare, by_date_desc. intros Hp k Hx.
  destruct (timestamp y) as [ty|], (timestamp x) as [tx|]; simpl in Hp; try lia.
  destruct k as [k|]; simpl in *; [|reflexivity].
  apply Z.eqb_eq in Hx. apply Z.eqb_neq. lia.
Qed.

(** When every date that is present parses, the sort of [init] keeps the
    order of the file among the projects with one and the same time value
    (those of one day, say, or those without a date): [sort] is stable. *)
Theorem load_keeps_the_order_of_equal_dates ps st k :
  (forall p, In p ps -> timestamp p <> None) ->
  let st' := main (Response (Json (Some ps))) st in
  List.filter (fun p => time_eqb (timestamp p) k) (deref st' (all st'))
  = List.filter (fun p => time_eqb (timestamp p) k) ps.
Proof.
  intros _. cbv zeta. rewrite main_all. unfold js_sort. rewrite List.filter_rev.
  set (P := fun p => time_eqb (timestamp p) k).
  assert (forall l acc,
             List.filter P (fold_left (fun racc x => insert_rev by_date_desc x racc) l acc)
             = rev (List.filter P l) ++ List.filter P acc) as Hgen.
  { induction l as [|x l IH]; intros acc; [reflexivity|].
    simpl fold_left. rewrite IH, insert_rev_filter.
    - simpl List.filter. destruct (P x); simpl; rewrite <- ?app_assoc; reflexivity.
    - intros y Hp Hx. now apply (by_date_skip x y Hp k). }
  rewrite Hgen. simpl. rewrite app_nil_r. apply rev_involutive.
Qed.


(** *** Filtering and rendering *)

Lemma after_filters_all st v :
  heap st !! all st = Some v ->
  deref (after_filters st) (all (after_filters st)) = v /\
  rssLink (after_filters st) = Some (makeRSS v).
Proof.
  intros Hv. pose proof (fresh_other _ _ _ Hv) as Hf.
  assert (deref (with_heap (<[fresh (dom (heap st)) := filtered_view st]> (heap st)) st)
                (all st) = v) as E.
  { unfold deref. cbn [heap with_heap]. rewrite lookup_insert_ne by exact Hf.
    now rewrite Hv. }
  split.
  - unfold after_filters at 2.
    cbn [all with_rssLink with_count with_grid with_heap].
    unfold deref. rewrite (after_filters_extends st _ _ Hv). reflexivity.
  - unfold after_filters. cbn [rssLink with_rssLink]. now rewrite E.
Qed.

(** The feed is made from all the loaded projects, whatever the controls
    say: what the filter hides from the grid is still in the feed. *)
Theorem feed_ignores_the_filters st v q tag d a w :
  heap st !! all st = Some v ->
  rssLink (snd (applyFilters (set_controls q tag d a w st))) = Some (makeRSS v).
Proof.
  intros Hv. rewrite applyFilters_run. cbn [snd].
  apply after_filters_all. exact Hv.
Qed.

(** Every description that [render] assigns to a card is sanitized markup. *)
Theorem rendered_descriptions_are_sanitized st :
  exists cs,
    grid (snd (applyFilters st)) = Cards cs /\
    Forall (fun c => Html.Sanitized MdShape.all_tags (card_desc c)) cs.
Proof.
  rewrite applyFilters_run. cbn [snd].
  exists (List.map card_of (filtered_view st)). split; [reflexivity|].
  apply Forall_forall. intros c Hc.
  apply list_elem_of_In, in_map_iff in Hc as (p & <- & _).
  unfold card_of. cbn [card_desc]. unfold Md.mdToHtml.
  apply MdFacts.join_sanitized, MdFacts.run_sane.
Qed.

Lemma or_else_nonempty o d : d <> [] -> or_else o d <> [].
Proof. intros Hd. destruct o as [[|c s]|]; simpl; auto; discriminate. Qed.

(** A card never has an empty title, an image never an empty alternative
    text and a link never an empty label: each falls back on a fixed text. *)
Theorem cards_have_no_empty_label p :
  card_title (card_of p) <> [] /\
  Forall (fun i => snd i <> []) (card_images (card_of p)) /\
  Forall (fun l => snd l <> []) (card_links (card_of p)).
Proof.
  unfold card_of. cbn [card_title card_images card_links].
  split; [apply or_else_nonempty; discriminate|]. split.
  - apply Forall_forall. intros i Hi.
    apply list_elem_of_In, in_map_iff in Hi as (img & <- & _).
    destruct img; simpl; repeat apply or_else_nonempty; discriminate.
  - apply Forall_forall. intros l Hl.
    apply list_elem_of_In, in_map_iff in Hl as (k & <- & _).
    simpl. apply or_else_nonempty. discriminate.
Qed.

Lemma keep_without_query d a v p : keep [] [] d a v p = passes d a v p.
Proof.
  unfold keep, passes.
  destruct (isPrivate p), v, (isDraft p), d, (isArchived p), a; reflexivity.
Qed.

(** With no query and no tag selected only the flags count: a project is
    shown unless it carries a flag whose toggle is off.  So with the three
    toggles on every loaded project is shown, and with the three off those
    without any flag. *)
Theorem without_query_only_flags_count st :
  normalize (search_value st) = [] ->
  tagFilter_value st = [] ->
  filtered_view st
  = List.filter (passes (showDrafts_checked st) (showArchived_checked st)
                        (showPrivate_checked st)) (deref st (all st))
  /\ (showDrafts_checked st = true -> showArchived_checked st = true ->
      showPrivate_checked st = true -> filtered_view st = deref st (all st))
  /\ (showDrafts_checked st = false -> showArchived_checked st = false ->
      showPrivate_checked st = false ->
      filtered_view st = List.filter unflagged (deref st (all st))).
Proof.
  intros Hq Ht. unfold filtered_view. rewrite Hq, Ht.
  assert (forall d a v l, List.filter (keep [] [] d a v) l = List.filter (passes d a v) l)
    as E by (intros; apply List.filter_ext; intros; apply keep_without_query).
  rewrite E. split; [reflexivity|]. split.
  - intros -> -> ->. induction (deref st (all st)) as [|p l IH]; [reflexivity|].
    simpl. unfold passes at 1.
    destruct (isPrivate p), (isDraft p), (isArchived p); simpl; now rewrite IH.
  - intros -> -> ->. apply List.filter_ext. intros p. unfold passes, unflagged.
    now destruct (isPrivate p), (isDraft p), (isArchived p).
Qed.

(** Filtering again with the controls as they are shows the same cards,
    the same counter and the same options: [render] empties the grid before
    it fills it, so no card is there twice.  (The feed link is not compared:
    each [render] makes a new blob for it.) *)
Theorem applyFilters_again_shows_the_same_cards st v :
  heap st !! all st = Some v ->
  displayed (snd (applyFilters (snd (applyFilters st))))
  = displayed (snd (applyFilters st)).
Proof.
  intros Hv. rewrite !applyFilters_run. cbn [snd].
  destruct (after_filters_all st v Hv) as [Hd Hr].
  assert (heap (after_filters st) !! all (after_filters st) = Some v) as Hv'
      by (apply after_filters_extends; exact Hv).
  destruct (after_filters_all (after_filters st) v Hv') as [_ Hr'].
  assert (filtered_view (after_filters st) = filtered_view st) as Ev.
  { unfold filtered_view at 1. rewrite Hd.
    unfold filtered_view, deref. now rewrite Hv. }
  unfold displayed.
  unfold after_filters at 1 3 5.
  cbn [grid count tagOptions with_rssLink with_count with_grid with_heap].
  rewrite Ev. reflexivity.
Qed.

(** A tag of the filter that is not the empty string selects the projects
    that carry it, and at least one, when the toggles are on and there is
    no query: no option of the filter is a dead end. *)
Theorem every_offered_tag_selects_a_project st t :
  In t (uniqueTags (deref st (all st))) ->
  t <> [] ->
  tagFilter_value st = t ->
  normalize (search_value st) = [] ->
  showDrafts_checked st = true -> showArchived_checked st = true ->
  showPrivate_checked st = true ->
  filtered_view st = List.filter (has_tag t) (deref st (all st)) /\
  filtered_view st <> [].
Proof.
  intros Hin Hne Ht Hq Hd Ha Hp.
  assert (filtered_view st = List.filter (has_tag t) (deref st (all st))) as E.
  { unfold filtered_view. rewrite Hq, Ht, Hd, Ha, Hp.
    apply List.filter_ext. intros p. unfold keep, has_tag.
    destruct t as [|c t]; [congruence|].
    now destruct (isPrivate p), (isDraft p), (isArchived p). }
  split; [exact E|]. rewrite E.
  apply uniqueTags_spec in Hin as (p & Hp' & Htag).
  intros En.
  assert (In p (List.filter (has_tag t) (deref st (all st)))) as Hf.
  { apply filter_In. split; [exact Hp'|]. unfold has_tag.
    now apply existsb_str_eqb. }
  rewrite En in Hf. destruct Hf.
Qed.

(** After loading, the options of the tag filter are those there were and
    then the distinct tags of the projects of the file. *)
Theorem load_offers_the_tags_of_the_file ps st t :
  let st' := main (Response (Json (Some ps))) st in
  In t (tagOptions st') <->
  In t (tagOptions st) \/ exists p, In p ps /\ In t (default [] (tags p)).
Proof.
  cbv zeta. rewrite main_run.
  set (lp := fresh (dom (heap st))).
  set (st1 := with_heap (<[lp := ps]> (heap st)) st).
  unfold after_filters. cbn [tagOptions with_rssLink with_count with_grid with_heap].
  unfold loaded. cbn [tagOptions with_listeners with_tagOptions].
  assert (deref st1 lp = ps) as ->
      by (unfold deref, st1; cbn [heap with_heap]; now rewrite lookup_insert_eq).
  change (tagOptions st1) with (tagOptions st).
  rewrite in_app_iff. destruct (uniqueTags_spec (js_sort by_date_desc ps)) as [_ Hu].
  rewrite Hu. pose proof (js_sort_perm by_date_desc ps) as Hp.
  split; (intros [Ho|(p & Hp' & Htag)]; [now left|]); right; exists p; split; auto.
  - now apply (Permutation_in _ (Permutation_sym Hp)).
  - now apply (Permutation_in _ Hp).
Qed.

(** *** Dates and queries *)

(** A project without a date shows no date on its card, and only such a
    project; a date that does not parse is shown as it was typed. *)
Theorem card_date_follows_the_date p :
  (card_date (card_of p) = [] <-> truthy (date p) = false) /\
  (forall d, date p = Some d -> d <> [] -> date_parse d = None ->
             card_date (card_of p) = ustr "Updated: " ++ d).
Proof.
  unfold card_of. cbn [card_date]. split.
  - destruct (truthy (date p)); split; auto; discriminate.
  - intros d Ed Hd Hp. rewrite Ed. destruct d as [|c d]; [congruence|].
    simpl. now rewrite Hp.
Qed.

Lemma trim_fixed c r :
  is_ws c = false -> (exists a d, c :: r = a ++ [d] /\ is_ws d = false) ->
  trim (c :: r) = c :: r.
Proof.
  intros Hc (a & d & E & Hd). unfold trim, trimStart. simpl. rewrite Hc.
  rewrite <- (app_nil_r (c :: r)) at 1. apply trimEnd_unique; [reflexivity|].
  right. now exists a, d.
Qed.

(** What [normalize] gives has no whitespace at either end, whatever the
    host's lower case is: trimming it again changes nothing, and when it is
    not empty its first and its last character are not whitespace. *)
Theorem normalize_is_trimmed s :
  trim (normalize s) = normalize s /\
  (normalize s = [] \/
   exists c a d, normalize s = c :: a /\ is_ws c = false /\
                 last (normalize s) = Some d /\ is_ws d = false).
Proof.
  unfold normalize. destruct (trim (toLowerCase s)) as [|c r] eqn:E.
  - split; [reflexivity | now left].
  - destruct (trim_ends _ c r E) as (Hc & a & d & Ea & Hd).
    split; [apply trim_fixed; eauto|].
    right. exists c, r, d. repeat split; auto.
    rewrite Ea. apply last_snoc.
Qed.

(** *** The address of the feed *)

(** [base] is [location.href] up to its last slash when that is followed
    by [index.html] or [index.htm], and [location.href] itself otherwise: it
    begins [location.href] and never ends in [/index.html] or [/index.htm]. *)
Theorem base_drops_the_index_page :
  startsWith base location_href = true /\
  ends_with (ustr "/index.html") base = false /\
  ends_with (ustr "/index.htm") base = false /\
  (ends_with (ustr "/index.html") location_href = true ->
   location_href = base ++ ustr "index.html") /\
  (ends_with (ustr "/index.html") location_href = false ->
   ends_with (ustr "/index.htm") location_href = true ->
   location_href = base ++ ustr "index.htm") /\
  (ends_with (ustr "/index.html") location_href = false ->
   ends_with (ustr "/index.htm") location_href = false ->
   location_href = base).
Proof.
  unfold base, ends_with.
  destruct (startsWith (rev (ustr "/index.html")) (rev location_href)) eqn:E1.
  - apply startsWith_spec in E1 as [b Eb].
    assert (location_href = rev b ++ ustr "/index.html") as Eh.
    { rewrite <- (rev_involutive location_href), Eb, rev_app_distr.
      now rewrite rev_involutive. }
    rewrite Eb.
    change (skipn 10 (rev (ustr "/index.html") ++ b)) with (ch "/" :: b).
    change (rev (ch "/" :: b)) with (rev b ++ ustr "/").
    rewrite rev_app_distr, rev_involutive.
    split; [apply startsWith_spec; exists (ustr "index.html");
            rewrite Eh, <- app_assoc; reflexivity|].
    split; [reflexivity|]. split; [reflexivity|].
    split; [intros _; rewrite Eh, <- app_assoc; reflexivity|].
    split; discriminate.
  - destruct (startsWith (rev (ustr "/index.htm")) (rev location_href)) eqn:E2.
    + apply startsWith_spec in E2 as [b Eb].
      assert (location_href = rev b ++ ustr "/index.htm") as Eh.
      { rewrite <- (rev_involutive location_href), Eb, rev_app_distr.
        now rewrite rev_involutive. }
      rewrite Eb.
      change (skipn 9 (rev (ustr "/index.htm") ++ b)) with (ch "/" :: b).
      change (rev (ch "/" :: b)) with (rev b ++ ustr "/").
      rewrite rev_app_distr, rev_involutive.
      split; [apply startsWith_spec; exists (ustr "index.htm");
              rewrite Eh, <- app_assoc; reflexivity|].
      split; [reflexivity|]. split; [reflexivity|].
      split; [discriminate|].
      split; [intros _ _; rewrite Eh, <- app_assoc; reflexivity | discriminate].
    + rewrite E1, E2.
      split; [apply startsWith_spec; exists []; now rewrite app_nil_r|].
      repeat split; auto; discriminate.
Qed.

End More.

Lemma uniqueTags_are_in_order_witness :
  uniqueTags (H := exampleHost) tagged_example = [ustr "art"; ustr "code"; ustr "web"]
  /\ in_order (fun a b => Some (compare_units a b))
              (uniqueTags (H := exampleHost) tagged_example) = true.
Proof.
  split; [vm_compute; reflexivity|].
  apply (uniqueTags_are_in_order (H := exampleHost) tagged_example).
  vm_compute. reflexivity.
Defined.

Lemma load_sorts_the_dates_that_parse_witness :
  descending
    (List.map (timestamp (H := exampleHost))
       (deref (main (H := exampleHost)
                 (Response (Json (Some [project "A" "2020-01-01" "a";
                                        project "B" "2021-06-01" "b";
                                        project "C" "" "c"])))
                 initial_page)
              (all (main (H := exampleHost)
                      (Response (Json (Some [project "A" "2020-01-01" "a";
                                             project "B" "2021-06-01" "b";
                                             project "C" "" "c"])))
                      initial_page)))) = true.
Proof.
  apply (load_sorts_the_dates_that_parse (H := exampleHost)).
  intros p [<-|[<-|[<-|[]]]]; vm_compute; discriminate.
Defined.

Lemma load_keeps_the_order_of_equal_dates_witness :
  List.map title
    (deref (main (H := exampleHost) (Response (Json (Some same_day_example)))
              initial_page)
       (all (main (H := exampleHost) (Response (Json (Some same_day_example)))
               initial_page)))
  = List.map (fun t => Some (ustr t)) ["B"; "D"; "A"; "C"]%string
  /\ List.filter (fun p => time_eqb (timestamp (H := exampleHost) p)
                             (Some 1577836800000%Z))
       (deref (main (H := exampleHost) (Response (Json (Some same_day_example)))
                 initial_page)
          (all (main (H := exampleHost) (Response (Json (Some same_day_example)))
                  initial_page)))
     = [project "A" "2020-01-01" "a"; project "C" "2020-01-01" "c"].
Proof.
  split; [vm_compute; reflexivity|].
  rewrite (load_keeps_the_order_of_equal_dates (H := exampleHost)
             same_day_example initial_page (Some 1577836800000%Z)).
  - vm_compute. reflexivity.
  - intros p [<-|[<-|[<-|[<-|[]]]]]; vm_compute; discriminate.
Defined.

Lemma feed_ignores_the_filters_witness :
  List.map title (filtered_view (H := exampleHost) tagged_page) = [Some (ustr "One")] /\
  rssLink (snd (applyFilters (H := exampleHost)
                  (set_controls [] [] false false false tagged_page)))
  = Some (makeRSS (H := exampleHost) tagged_example).
Proof.
  split; [vm_compute; reflexivity|].
  apply (feed_ignores_the_filters (H := exampleHost)).
  vm_compute. reflexivity.
Defined.

Lemma without_query_only_flags_count_witness :
  filtered_view (H := exampleHost) tagged_page
  = List.filter unflagged (deref tagged_page (all tagged_page)) /\
  filtered_view (H := exampleHost) (set_controls [] [] true true true tagged_page)
  = deref tagged_page (all tagged_page).
Proof.
  split.
  - refine (proj2 (proj2 (without_query_only_flags_count (H := exampleHost)
                            tagged_page _ _)) _ _ _); reflexivity.
  - refine (proj1 (proj2 (without_query_only_flags_count (H := exampleHost)
                            (set_controls [] [] true true true tagged_page) _ _))
              _ _ _); reflexivity.
Defined.

Lemma applyFilters_again_shows_the_same_cards_witness :
  displayed (snd (applyFilters (H := exampleHost)
                    (snd (applyFilters (H := exampleHost) tagged_page))))
  = displayed (snd (applyFilters (H := exampleHost) tagged_page)).
Proof.
  apply (applyFilters_again_shows_the_same_cards (H := exampleHost)
           tagged_page tagged_example).
  vm_compute. reflexivity.
Defined.

Lemma every_offered_tag_selects_a_project_witness :
  List.map title
    (filtered_view (H := exampleHost)
       (set_controls [] (ustr "code") true true true tagged_page))
  = [Some (ustr "Two")].
Proof.
  destruct (every_offered_tag_selects_a_project (H := exampleHost)
              (set_controls [] (ustr "code") true true true tagged_page) (ustr "code"))
    as [E _].
  - vm_compute. auto.
  - discriminate.
  - reflexivity.
  - reflexivity.
  - reflexivity.
  - reflexivity.
  - reflexivity.
  - rewrite E. vm_compute. reflexivity.
Defined.

Lemma base_drops_the_index_page_witness :
  base (H := exampleHost) = ustr "https://example.org/works/" /\
  location_href (Host := exampleHost) = base (H := exampleHost) ++ ustr "index.html".
Proof.
  split; [vm_compute; reflexivity|].
  apply (proj1 (proj2 (proj2 (proj2 (base_drops_the_index_page (H := exampleHost)))))).
  vm_compute. reflexivity.
Defined.

Lemma card_date_follows_the_date_witness :
  card_date (card_of (H := exampleHost) (project "X" "soon" "second"))
  = ustr "Updated: soon".
Proof.
  apply (proj2 (card_date_follows_the_date (H := exampleHost)
                  (project "X" "soon" "second")) (ustr "soon"));
    [reflexivity | discriminate | vm_compute; reflexivity].
Defined.

End PageMore.
